(** * hpx-nodejs-addon: a shallow embedding of the addon's coordination layer

    The development follows the C++ sources under [addon/src]:

    - [hpx_config]   : [HPXUserConfig] and its defaults;
    - [hpx_wrapper]  : [run_with_policy] and the [hpx_*] wrappers;
    - [utils]        : the batch callbacks of [data_conversion.cpp], the
                       [TSFNManager] registry and [QueueAsyncWork];
    - [hpx_manager]  : the [HPXManager] life cycle;
    - [addon]        : the functions exported to JavaScript.

    Conventions.  An [int32_t] / [uint8_t] element is a [Z] (the code only
    copies and compares elements); a [size_t] used as a length or an index is
    a [nat], the configured threshold is an [N]; a [std::string] is a
    [string].  A JavaScript Number handed to an exported function as a
    count, a position or a value is a [Z], its integral value, which the
    function reads with [Uint32Value] or [Int32Value].  A C++ computation that may throw is a value of [result]; a read
    or write outside a buffer is [Undefined].  The algorithms of the HPX
    library itself are not part of the repository: the order-producing ones
    ([hpx::sort], [hpx::partial_sort]) and the order in which a parallel
    policy visits the elements are taken as an [AlgorithmLibrary] constrained
    by [LibraryContract]; the element-wise ones are written out. *)

From Stdlib Require Import String Ascii ZArith NArith Arith Bool Lia.
From Stdlib Require Import List Permutation Sorted.
Import ListNotations.

Local Open Scope string_scope.
Local Open Scope list_scope.
Local Open Scope Z_scope.

(* ================================================================= *)
(** ** Computations that may throw *)

Inductive result (A : Type) : Type :=
| Ok (v : A)                 (* normal return *)
| Throw (what : string)      (* a std::exception with this what() *)
| Undefined.                 (* out-of-bounds access *)

Arguments Ok {A} v.
Arguments Throw {A} what.
Arguments Undefined {A}.

Definition bind {A B : Type} (r : result A) (k : A -> result B) : result B :=
  match r with
  | Ok v => k v
  | Throw w => Throw w
  | Undefined => Undefined
  end.

Notation "x <- r ;; k" := (bind r (fun x => k))
  (at level 61, r at next level, right associativity).

(** The state of the promise handed to JavaScript once the job is done. *)
Inductive settled (A : Type) : Type :=
| Resolved (v : A)
| Rejected (reason : string)
| Crashed.                   (* the job ran into undefined behaviour *)

Arguments Resolved {A} v.
Arguments Rejected {A} reason.
Arguments Crashed {A}.

(* ================================================================= *)
(** ** hpx_config.hpp *)

Record HPXUserConfig : Type := {
  executionPolicy : string;
  threshold : N;
  threadCount : N;
  loggingEnabled : bool;
  logLevel : string;
  addonName : string
}.

(** The member initialisers of [struct HPXUserConfig]. *)
Definition default_config : HPXUserConfig := {|
  executionPolicy := "par";
  threshold := 10000%N;
  threadCount := 2%N;
  loggingEnabled := true;
  logLevel := "INFO";
  addonName := "hpxaddon"
|}.

(* ================================================================= *)
(** ** hpx_run_policy.hpp *)

(** [hpx::execution::seq], [par] and [par_unseq]. *)
Inductive policy : Type := seq_policy | par_policy | par_unseq_policy.

Definition run_with_policy {R : Type} (cfg : HPXUserConfig)
    (f : policy -> R) (size : N) : R :=
  let useParallel := (threshold cfg <=? size)%N in
  if negb useParallel then f seq_policy
  else if String.eqb (executionPolicy cfg) "seq" then f seq_policy
  else if String.eqb (executionPolicy cfg) "par_unseq" then f par_unseq_policy
  else f par_policy.

(** The policy a configuration names, in the words of the configuration
    surface: ["seq"], ["par"] or ["par_unseq"], anything else meaning
    Parallel. *)
Definition configured_policy (cfg : HPXUserConfig) : policy :=
  match executionPolicy cfg with
  | "seq" => seq_policy
  | "par_unseq" => par_unseq_policy
  | _ => par_policy
  end.

(* ================================================================= *)
(** ** The parallel algorithm library (external collaborator) *)

(** What the addon consumes from HPX and cannot be read off the repository:
    the sorting algorithms, and the order in which an execution policy
    visits the positions of a range of a given length. *)
Record AlgorithmLibrary : Type := {
  lib_sort : policy -> list Z -> list Z;
  lib_partial_sort : policy -> list Z -> nat -> list Z;
  lib_partial_sort_comp : policy -> (Z -> Z -> bool) -> list Z -> nat -> list Z;
  lib_visit_order : policy -> nat -> list nat
}.

(** The documented contract of those algorithms: [hpx::sort] returns the
    ascending arrangement of its range, [hpx::partial_sort] with a comparator
    rearranges its range, every policy visits each position once, and the
    sequential policy does so from first to last. *)
Record LibraryContract (L : AlgorithmLibrary) : Prop := {
  sort_sorted : forall p l, StronglySorted Z.le (lib_sort L p l);
  sort_permutes : forall p l, Permutation l (lib_sort L p l);
  partial_sort_comp_permutes : forall p comp l middle,
    (middle <= length l)%nat ->
    Permutation l (lib_partial_sort_comp L p comp l middle);
  visit_each_once : forall p n, Permutation (lib_visit_order L p n) (seq 0 n);
  seq_visits_in_order : forall n, lib_visit_order L seq_policy n = seq 0 n
}.

(** *** Element-wise algorithms, written out *)

(** [std::vector<int32_t>(src, src + count)]: reading [count] elements from
    a pointer into an array. *)
Definition read_range (src : list Z) (count : nat) : result (list Z) :=
  if (count <=? length src)%nat then Ok (firstn count src) else Undefined.

(** [hpx::copy(policy, first, last, dest)] *)
Definition algo_copy (src dst : list Z) : result (list Z) :=
  if (length src <=? length dst)%nat
  then Ok (src ++ skipn (length src) dst)
  else Undefined.

(** [hpx::copy_n(policy, first, count, dest)] *)
Definition algo_copy_n (src : list Z) (count : nat) (dst : list Z)
    : result (list Z) :=
  if ((count <=? length src) && (count <=? length dst))%nat
  then Ok (firstn count src ++ skipn count dst)
  else Undefined.

(** [hpx::equal(policy, first1, last1, first2, last2)], the overload taking
    both ends. *)
Fixpoint algo_equal (l1 l2 : list Z) : bool :=
  match l1, l2 with
  | [], [] => true
  | x :: r1, y :: r2 => (x =? y) && algo_equal r1 r2
  | _, _ => false
  end.

(** A call of [hpx::partial_sort] needs [begin + middle] inside the range. *)
Definition algo_partial_sort (L : AlgorithmLibrary) (p : policy)
    (input : list Z) (middle : nat) : result (list Z) :=
  if (middle <=? length input)%nat
  then Ok (lib_partial_sort L p input middle)
  else Undefined.

Definition algo_partial_sort_comp (L : AlgorithmLibrary) (p : policy)
    (comp : Z -> Z -> bool) (input : list Z) (middle : nat)
    : result (list Z) :=
  if (middle <=? length input)%nat
  then Ok (lib_partial_sort_comp L p comp input middle)
  else Undefined.

(** *** Algorithms taking a predicate

    The predicates the addon passes carry state (a cursor), so a predicate is
    a state-passing function and the algorithm calls it once per position, in
    the order the policy visits the positions. *)
Section Predicated.
Context {St : Type}.
Variable pred : St -> Z -> result (bool * St).

Fixpoint apply_pred (input : list Z) (visit : list nat) (st : St)
    : result (list (nat * bool)) :=
  match visit with
  | [] => Ok []
  | i :: rest =>
      match nth_error input i with
      | None => Undefined
      | Some x =>
          bs <- pred st x ;;
          fs <- apply_pred input rest (snd bs) ;;
          Ok ((i, fst bs) :: fs)
      end
  end.

(** The answer recorded for position [i]. *)
Fixpoint flag_of (fs : list (nat * bool)) (i : nat) : bool :=
  match fs with
  | [] => false
  | (j, b) :: rest => if (i =? j)%nat then b else flag_of rest i
  end.

Definition selected (fs : list (nat * bool)) (input : list Z) : list Z :=
  map snd (filter (fun ix => flag_of fs (fst ix))
                  (combine (seq 0 (length input)) input)).

(** [hpx::count_if(policy, first, last, pred)] *)
Definition algo_count_if (L : AlgorithmLibrary) (p : policy)
    (input : list Z) (st : St) : result Z :=
  fs <- apply_pred input (lib_visit_order L p (length input)) st ;;
  Ok (Z.of_nat (length (selected fs input))).

(** [hpx::copy_if(policy, first, last, dest, pred)]: the destination after
    the call and the number of elements written. *)
Definition algo_copy_if (L : AlgorithmLibrary) (p : policy)
    (input dst : list Z) (st : St) : result (list Z * nat) :=
  fs <- apply_pred input (lib_visit_order L p (length input)) st ;;
  let out := selected fs input in
  if (length out <=? length dst)%nat
  then Ok (out ++ skipn (length out) dst, length out)
  else Undefined.
End Predicated.

(* ================================================================= *)
(** ** hpx_wrapper.cpp

    Each wrapper copies its input into a vector and runs the algorithm under
    [run_with_policy]; the value below is what [fut.get()] gives. *)

Definition size_of (l : list Z) : N := N.of_nat (length l).

Definition hpx_sort (L : AlgorithmLibrary) (cfg : HPXUserConfig)
    (src : list Z) : result (list Z) :=
  let input := src in
  run_with_policy cfg (fun p => Ok (lib_sort L p input)) (size_of input).

Definition hpx_copy (cfg : HPXUserConfig) (src : list Z) : result (list Z) :=
  let input := src in
  run_with_policy cfg
    (fun _ => let output := repeat 0 (length input) in algo_copy input output)
    (size_of input).

Definition hpx_equal (cfg : HPXUserConfig) (arr1 arr2 : list Z)
    : result bool :=
  let v1 := arr1 in
  let v2 := arr2 in
  let effective_size := N.min (size_of v1) (size_of v2) in
  run_with_policy cfg (fun _ => Ok (algo_equal v1 v2)) effective_size.

Definition hpx_partial_sort (L : AlgorithmLibrary) (cfg : HPXUserConfig)
    (src : list Z) (middle : nat) : result (list Z) :=
  if (length src <? middle)%nat
  then Throw "'middle' index out of bounds"
  else
    let input := src in
    run_with_policy cfg (fun p => algo_partial_sort L p input middle)
      (size_of input).

Definition hpx_copy_n (cfg : HPXUserConfig) (src : list Z) (count : nat)
    : result (list Z) :=
  input <- read_range src count ;;
  run_with_policy cfg
    (fun _ => let output := repeat 0 count in algo_copy_n input count output)
    (N.of_nat count).

Definition hpx_count_if {St : Type} (L : AlgorithmLibrary)
    (cfg : HPXUserConfig) (src : list Z)
    (pred : St -> Z -> result (bool * St)) (st : St) : result Z :=
  let input := src in
  run_with_policy cfg (fun p => algo_count_if pred L p input st)
    (size_of src).

Definition hpx_copy_if {St : Type} (L : AlgorithmLibrary)
    (cfg : HPXUserConfig) (src : list Z)
    (pred : St -> Z -> result (bool * St)) (st : St) : result (list Z) :=
  let input := src in
  run_with_policy cfg
    (fun p =>
       let temp := repeat 0 (length input) in
       r <- algo_copy_if pred L p input temp st ;;
       (* temp.resize(std::distance(temp.begin(), end_it)) *)
       Ok (firstn (snd r) (fst r)))
    (size_of src).

Definition hpx_partial_sort_comp (L : AlgorithmLibrary) (cfg : HPXUserConfig)
    (src : list Z) (middle : nat) (comp : Z -> Z -> bool)
    : result (list Z) :=
  let size := length src in
  let middle := if (size <? middle)%nat then size else middle in
  let input := src in
  run_with_policy cfg (fun p => algo_partial_sort_comp L p comp input middle)
    (N.of_nat size).

(* ================================================================= *)
(** ** data_conversion.cpp: the batch callbacks *)

Inductive napi_status : Type := napi_ok | napi_closing | napi_queue_full.

Inductive napi_typedarray_type : Type :=
| napi_int8_array | napi_uint8_array | napi_uint8_clamped_array
| napi_int16_array | napi_uint16_array
| napi_int32_array | napi_uint32_array
| napi_float32_array | napi_float64_array
| napi_bigint64_array | napi_biguint64_array.

Definition typedarray_type_eqb (a b : napi_typedarray_type) : bool :=
  match a, b with
  | napi_int8_array, napi_int8_array
  | napi_uint8_array, napi_uint8_array
  | napi_uint8_clamped_array, napi_uint8_clamped_array
  | napi_int16_array, napi_int16_array
  | napi_uint16_array, napi_uint16_array
  | napi_int32_array, napi_int32_array
  | napi_uint32_array, napi_uint32_array
  | napi_float32_array, napi_float32_array
  | napi_float64_array, napi_float64_array
  | napi_bigint64_array, napi_bigint64_array
  | napi_biguint64_array, napi_biguint64_array => true
  | _, _ => false
  end.

(** What the JavaScript function hands back: a typed array of some element
    kind (contents as integers; only [ElementLength()] is looked at unless
    the kind is the expected one), or any other value. *)
Inductive js_value : Type :=
| JsTypedArray (kind : napi_typedarray_type) (elements : list Z)
| JsOther.

(** A [Napi::ThreadSafeFunction]: the status [NonBlockingCall] returns and
    the JavaScript function behind it. *)
Record ThreadSafeFunction : Type := {
  NonBlockingCall_status : napi_status;
  jsFn : list Z -> js_value
}.

(** [memcpy(dst, src, n)] on element buffers. *)
Definition memcpy (dst src : list Z) (n : nat) : result (list Z) :=
  if ((n <=? length src) && (n <=? length dst))%nat
  then Ok (firstn n src ++ skipn n dst)
  else Undefined.

(** The body of the lambda given to [NonBlockingCall]: the buffer and
    [*error] after it ran. *)
Definition batch_callback (expected : napi_typedarray_type)
    (not_typed same_length : string)
    (fn : list Z -> js_value) (dataCopy buffer : list Z)
    : result (list Z * string) :=
  let length_ := length dataCopy in
  match fn dataCopy with
  | JsOther => Ok (buffer, not_typed)
  | JsTypedArray kind elements =>
      if negb (typedarray_type_eqb kind expected)
         || negb (length elements =? length_)%nat
      then Ok (buffer, same_length)
      else
        filled <- memcpy buffer elements length_ ;;
        Ok (filled, "")
  end.

Definition batch_call (expected : napi_typedarray_type)
    (failed_call not_typed same_length : string)
    (tsfn : ThreadSafeFunction) (data : list Z) : result (list Z) :=
  let buffer := repeat 0 (length data) in
  match NonBlockingCall_status tsfn with
  | napi_ok =>
      r <- batch_callback expected not_typed same_length
             (jsFn tsfn) data buffer ;;
      if negb (String.eqb (snd r) "") then Throw (snd r) else Ok (fst r)
  | _ => Throw failed_call
  end.

Definition GetPredicateMaskBatchUsingTSFN
    : ThreadSafeFunction -> list Z -> result (list Z) :=
  batch_call napi_uint8_array
    "Failed NonBlockingCall for predicate."
    "Predicate must return a typed array (Uint8Array)."
    "Predicate must return a Uint8Array of same length.".

Definition GetKeyArrayBatchUsingTSFN
    : ThreadSafeFunction -> list Z -> result (list Z) :=
  batch_call napi_int32_array
    "Failed NonBlockingCall for key extraction."
    "Key extractor must return an Int32Array of same length as input."
    "Key extractor must return Int32Array of same length.".

(** The error the specification calls [ShapeMismatch]: the host function
    returned something that is not an array of the expected kind and
    length. *)
Definition ShapeMismatch (what : string) : Prop :=
  what = "Predicate must return a typed array (Uint8Array)."
  \/ what = "Predicate must return a Uint8Array of same length."
  \/ what = "Key extractor must return an Int32Array of same length as input."
  \/ what = "Key extractor must return Int32Array of same length.".

(* ================================================================= *)
(** ** async_helpers.hpp *)

(** [QueueAsyncWork] with the execute lambda
    [try { ...; res = fut.get(); } catch (const std::exception& e) { err = e.what(); }]
    and the complete lambda of the array and number operations: the promise
    is rejected when the error message is not empty, and resolved with the
    result otherwise.  [untouched] is what resolving gives when the result
    was never assigned. *)
Definition QueueAsyncWork {T : Type} (untouched : settled T)
    (execute : result T) : settled T :=
  match execute with
  | Ok res => Resolved res
  | Throw what => if String.eqb what "" then untouched else Rejected what
  | Undefined => Crashed
  end.

(* ================================================================= *)
(** ** addon.cpp: the data operations *)

Definition Sort (L : AlgorithmLibrary) (cfg : HPXUserConfig)
    (inputArr : list Z) : settled (list Z) :=
  QueueAsyncWork Crashed (hpx_sort L cfg inputArr).

Definition Copy (cfg : HPXUserConfig) (inputArr : list Z)
    : settled (list Z) :=
  QueueAsyncWork Crashed (hpx_copy cfg inputArr).

Definition Equal (cfg : HPXUserConfig) (v1 v2 : list Z) : settled bool :=
  QueueAsyncWork (Resolved false) (hpx_equal cfg v1 v2).

(** A JavaScript Number argument is given by its integral value.
    [Napi::Number::Uint32Value()] keeps the bottom 32 bits of it. *)
Definition Uint32Value (number : Z) : nat := Z.to_nat (number mod 2^32).

(** [uint32_t middle = info[1].As<Napi::Number>().Uint32Value();] *)
Definition PartialSort (L : AlgorithmLibrary) (cfg : HPXUserConfig)
    (inputArr : list Z) (number : Z) : settled (list Z) :=
  let middle := Uint32Value number in
  QueueAsyncWork Crashed (hpx_partial_sort L cfg inputArr middle).

(** [size_t count = info[1].As<Napi::Number>().Uint32Value();
     if (count > dataSize) count = dataSize;] *)
Definition CopyN (cfg : HPXUserConfig) (inputArr : list Z) (number : Z)
    : settled (list Z) :=
  let count := Uint32Value number in
  let dataSize := length inputArr in
  let count := if (dataSize <? count)%nat then dataSize else count in
  QueueAsyncWork Crashed (hpx_copy_n cfg inputArr count).

(** [MaskPredicate::operator()]: the element is ignored, the answer is read
    at [currentIndex.fetch_add(1)]. *)
Definition MaskPredicate (maskHolder : list Z) (currentIndex : nat)
    (val : Z) : result (bool * nat) :=
  let idx := currentIndex in
  match nth_error maskHolder idx with
  | Some m => Ok (m =? 1, S currentIndex)
  | None => Undefined
  end.

Definition CountIf (L : AlgorithmLibrary) (cfg : HPXUserConfig)
    (tsfn : ThreadSafeFunction) (inputArr : list Z) : settled Z :=
  QueueAsyncWork (Resolved 0)
    (mask <- GetPredicateMaskBatchUsingTSFN tsfn inputArr ;;
     hpx_count_if L cfg inputArr (MaskPredicate mask) 0%nat).

Definition CopyIf (L : AlgorithmLibrary) (cfg : HPXUserConfig)
    (tsfn : ThreadSafeFunction) (inputArr : list Z) : settled (list Z) :=
  QueueAsyncWork Crashed
    (mask <- GetPredicateMaskBatchUsingTSFN tsfn inputArr ;;
     hpx_copy_if L cfg inputArr (MaskPredicate mask) 0%nat).

(** [(int32_t)dataSize] *)
Definition to_int32 (z : Z) : Z := (z + 2^31) mod 2^32 - 2^31.

(** [std::vector<int32_t> idx(dataSize);
     for (int32_t i = 0; i < (int32_t)dataSize; i++) idx[i] = i;] *)
Definition index_array (dataSize : nat) : list Z :=
  map (fun i => if Z.of_nat i <? to_int32 (Z.of_nat dataSize)
                then Z.of_nat i else 0)
      (seq 0 dataSize).

(** The comparator of the index sort: the key at [lhs] is less than the key
    at [rhs]. *)
Definition key_comp (keys : list Z) (lhs rhs : Z) : bool :=
  nth (Z.to_nat lhs) keys 0 <? nth (Z.to_nat rhs) keys 0.

(** The reordering loop: [outVec[i]] is the element of [inputVec] at the
    position stored in [partiallySortedIdx[i]], for every [i]. *)
Fixpoint gather (inputVec : list Z) (indices : list Z) : result (list Z) :=
  match indices with
  | [] => Ok []
  | j :: rest =>
      if j <? 0 then Undefined
      else
        match nth_error inputVec (Z.to_nat j) with
        | None => Undefined
        | Some x => out <- gather inputVec rest ;; Ok (x :: out)
        end
  end.

(** [uint32_t middle = info[1].As<Napi::Number>().Uint32Value();
     if (middle > dataSize) middle = dataSize;], the assignment storing
    [dataSize] in 32 bits. *)
Definition PartialSortComp (L : AlgorithmLibrary) (cfg : HPXUserConfig)
    (tsfn : ThreadSafeFunction) (inputArr : list Z) (number : Z)
    : settled (list Z) :=
  let middle := Uint32Value number in
  let dataSize := length inputArr in
  let middle := if (dataSize <? middle)%nat
                then Uint32Value (Z.of_nat dataSize) else middle in
  QueueAsyncWork Crashed
    (keys <- GetKeyArrayBatchUsingTSFN tsfn inputArr ;;
     let inputVec := inputArr in
     let idx := index_array dataSize in
     partiallySortedIdx <-
       hpx_partial_sort_comp L cfg idx middle (key_comp keys) ;;
     gather inputVec partiallySortedIdx).

(* ================================================================= *)
(** ** std::promise / std::future

    Every promise owns a shared state; a future observes one.  The shared
    states ever created are kept in a store and named by their position, so
    that two futures are the same future exactly when they carry the same
    name. *)

Inductive shared_state : Type :=
| Pending
| Ready (v : Z)
| BrokenPromise.

Definition store : Type := list shared_state.

Record promise : Type := {
  state_of : nat;
  future_retrieved : bool      (* get_future() was called *)
}.

Inductive future : Type := FutureOf (id : nat).

Inductive exception : Type :=
| future_already_retrieved
| promise_already_satisfied
| broken_promise.

(** What a call does: return, throw, end the process ([std::terminate]), or
    wait for something that never comes. *)
Inductive outcome (A : Type) : Type :=
| Returned (a : A)
| Raised (e : exception)
| Terminate
| Blocks.

Arguments Returned {A} a.
Arguments Raised {A} e.
Arguments Terminate {A}.
Arguments Blocks {A}.

Definition alloc (st : store) (s : shared_state) : nat * store :=
  (length st, st ++ [s]).

Fixpoint put (st : store) (id : nat) (s : shared_state) : store :=
  match st, id with
  | [], _ => []
  | _ :: rest, O => s :: rest
  | x :: rest, S k => x :: put rest k s
  end.

(** Destroying a promise whose shared state is not ready stores
    [broken_promise] in it. *)
Definition drop_promise (st : store) (p : option promise) : store :=
  match p with
  | Some pr =>
      match nth_error st (state_of pr) with
      | Some Pending => put st (state_of pr) BrokenPromise
      | _ => st
      end
  | None => st
  end.

(** [future::get()] *)
Definition future_get (st : store) (f : future) : outcome Z :=
  match f with
  | FutureOf id =>
      match nth_error st id with
      | Some (Ready v) => Returned v
      | Some BrokenPromise => Raised broken_promise
      | _ => Blocks
      end
  end.

(* ================================================================= *)
(** ** hpx_manager.cpp *)

Record HPXManager : Type := {
  hpx_thread_ : bool;                 (* hpx_thread_.joinable() *)
  init_promise_ : option promise;
  finalize_promise_ : option promise;
  running_ : bool;
  finalize_signal_promise_ : bool     (* its value has been set *)
}.

(** [HPXManager::HPXManager()] *)
Definition HPXManager_new : HPXManager := {|
  hpx_thread_ := false;
  init_promise_ := None;
  finalize_promise_ := None;
  running_ := false;
  finalize_signal_promise_ := false
|}.

(** Where the engine ([hpx_main_handler], run by the HPX runtime) stands. *)
Inductive engine_phase : Type :=
| NoEngine
| EngineStarting      (* RunHPX called hpx::start, the handler has not run *)
| EngineParked        (* inside WaitForFinalizeHPX, waiting for the signal *)
| EngineWoken         (* WaitForFinalizeHPX returned *)
| EngineExited.       (* SetRunning(false) done, the handler returned *)

Record process : Type := {
  futures : store;
  manager : HPXManager;
  engine : engine_phase;
  threads_spawned : nat;     (* std::thread objects started on RunHPX *)
  threads_joined : nat       (* successful hpx_thread_.join() calls *)
}.

Definition boot : process := {|
  futures := [];
  manager := HPXManager_new;
  engine := NoEngine;
  threads_spawned := 0;
  threads_joined := 0
|}.

Definition with_futures (st : store) (p : process) : process :=
  {| futures := st; manager := manager p; engine := engine p;
     threads_spawned := threads_spawned p;
     threads_joined := threads_joined p |}.

Definition with_manager (m : HPXManager) (p : process) : process :=
  {| futures := futures p; manager := m; engine := engine p;
     threads_spawned := threads_spawned p;
     threads_joined := threads_joined p |}.

Definition with_engine (e : engine_phase) (p : process) : process :=
  {| futures := futures p; manager := manager p; engine := e;
     threads_spawned := threads_spawned p;
     threads_joined := threads_joined p |}.

Definition set_hpx_thread (b : bool) (m : HPXManager) : HPXManager :=
  {| hpx_thread_ := b; init_promise_ := init_promise_ m;
     finalize_promise_ := finalize_promise_ m; running_ := running_ m;
     finalize_signal_promise_ := finalize_signal_promise_ m |}.

Definition set_init_promise (o : option promise) (m : HPXManager)
    : HPXManager :=
  {| hpx_thread_ := hpx_thread_ m; init_promise_ := o;
     finalize_promise_ := finalize_promise_ m; running_ := running_ m;
     finalize_signal_promise_ := finalize_signal_promise_ m |}.

Definition set_finalize_promise (o : option promise) (m : HPXManager)
    : HPXManager :=
  {| hpx_thread_ := hpx_thread_ m; init_promise_ := init_promise_ m;
     finalize_promise_ := o; running_ := running_ m;
     finalize_signal_promise_ := finalize_signal_promise_ m |}.

(** [HPXManager::SetRunning] *)
Definition SetRunning (b : bool) (m : HPXManager) : HPXManager :=
  {| hpx_thread_ := hpx_thread_ m; init_promise_ := init_promise_ m;
     finalize_promise_ := finalize_promise_ m; running_ := b;
     finalize_signal_promise_ := finalize_signal_promise_ m |}.

Definition set_finalize_signal (m : HPXManager) : HPXManager :=
  {| hpx_thread_ := hpx_thread_ m; init_promise_ := init_promise_ m;
     finalize_promise_ := finalize_promise_ m; running_ := running_ m;
     finalize_signal_promise_ := true |}.

(** [promise::set_value(v)] through one of the manager's promise members,
    skipped when the member is null; a shared state that already holds a
    result keeps it. *)
Definition resolve (o : option promise) (v : Z) (st : store) : store :=
  match o with
  | Some pr =>
      match nth_error st (state_of pr) with
      | Some Pending => put st (state_of pr) (Ready v)
      | _ => st
      end
  | None => st
  end.

(** [HPXManager::InitHPX] *)
Definition InitHPX (p : process) : outcome future * process :=
  let m := manager p in
  if running_ m then
    (* std::promise<int> promise; promise.set_value(-1); *)
    let (id, st) := alloc (futures p) (Ready (-1)) in
    (Returned (FutureOf id), with_futures st p)
  else
    (* init_promise_ = std::make_shared<std::promise<int>>(); *)
    let dropped := drop_promise (futures p) (init_promise_ m) in
    let (id, st) := alloc dropped Pending in
    let fresh := {| state_of := id; future_retrieved := false |} in
    (* std::thread(&HPXManager::RunHPX, ...) starts the thread *)
    let started := S (threads_spawned p) in
    if hpx_thread_ m then
      (* hpx_thread_ = ...: move assignment onto a joinable thread *)
      (Terminate,
       {| futures := st; manager := set_init_promise (Some fresh) m;
          engine := engine p; threads_spawned := started;
          threads_joined := threads_joined p |})
    else
      (* return init_promise_->get_future(); *)
      let taken := {| state_of := id; future_retrieved := true |} in
      (Returned (FutureOf id),
       {| futures := st;
          manager := set_hpx_thread true (set_init_promise (Some taken) m);
          engine := EngineStarting; threads_spawned := started;
          threads_joined := threads_joined p |}).

(** [hpx_main_handler] up to its call of [WaitForFinalizeHPX]:
    [SetRunning(true); ResolveInitPromise(0)]. *)
Definition engine_ready (p : process) : option process :=
  match engine p with
  | EngineStarting =>
      let m := SetRunning true (manager p) in
      Some {| futures := resolve (init_promise_ m) 0 (futures p);
              manager := m; engine := EngineParked;
              threads_spawned := threads_spawned p;
              threads_joined := threads_joined p |}
  | _ => None
  end.

(** [RunHPX] when [hpx::start] fails: the init promise gets -1. *)
Definition engine_start_failed (p : process) : option process :=
  match engine p with
  | EngineStarting =>
      Some (with_engine NoEngine
              (with_futures
                 (resolve (init_promise_ (manager p)) (-1) (futures p)) p))
  | _ => None
  end.

(** [HPXManager::WaitForFinalizeHPX] once the signal is there:
    [hpx::finalize()], then [finalize_promise_->set_value(0)]. *)
Definition WaitForFinalizeHPX (p : process) : option process :=
  match engine p with
  | EngineParked =>
      if finalize_signal_promise_ (manager p) then
        Some (with_engine EngineWoken
                (with_futures
                   (resolve (finalize_promise_ (manager p)) 0 (futures p)) p))
      else None
  | _ => None
  end.

(** The end of [hpx_main_handler]: [SetRunning(false)]. *)
Definition engine_exit (p : process) : option process :=
  match engine p with
  | EngineWoken =>
      Some (with_engine EngineExited
              (with_manager (SetRunning false (manager p)) p))
  | _ => None
  end.

(** [HPXManager::FinalizeHPX].  The mutex is held for the whole body, so the
    call is one transition; while it waits in [fut.get()] the engine runs
    [WaitForFinalizeHPX]. *)
Definition FinalizeHPX (p : process) : outcome future * process :=
  let m := manager p in
  if negb (running_ m) then
    let (id, st) := alloc (futures p) (Ready (-1)) in
    (Returned (FutureOf id), with_futures st p)
  else
    match finalize_promise_ m with
    | Some pr =>
        (* return finalize_promise_->get_future(); *)
        if future_retrieved pr then (Raised future_already_retrieved, p)
        else
          (Returned (FutureOf (state_of pr)),
           with_manager
             (set_finalize_promise
                (Some {| state_of := state_of pr;
                         future_retrieved := true |}) m) p)
    | None =>
        (* finalize_promise_ = std::make_shared<std::promise<int>>(); *)
        let (id, st) := alloc (futures p) Pending in
        let fresh := {| state_of := id; future_retrieved := false |} in
        if finalize_signal_promise_ m then
          (* finalize_signal_promise_.set_value() throws;
             catch (...) { finalize_promise_->set_value(-1); throw; } *)
          (Raised promise_already_satisfied,
           with_manager (set_finalize_promise (Some fresh) m)
             (with_futures (put st id (Ready (-1))) p))
        else
          let taken := {| state_of := id; future_retrieved := true |} in
          let signalled :=
            with_manager
              (set_finalize_signal (set_finalize_promise (Some taken) m))
              (with_futures st p) in
          (* fut.get() *)
          match WaitForFinalizeHPX signalled with
          | None => (Blocks, signalled)
          | Some woken =>
              match future_get (futures woken) (FutureOf id) with
              | Returned _ =>
                  let joined :=
                    if hpx_thread_ (manager woken) then
                      {| futures := futures woken;
                         manager := set_hpx_thread false (manager woken);
                         engine := engine woken;
                         threads_spawned := threads_spawned woken;
                         threads_joined := S (threads_joined woken) |}
                    else woken in
                  (* std::promise<int> result_promise;
                     result_promise.set_value(0); *)
                  let (rid, st') := alloc (futures joined) (Ready 0) in
                  (Returned (FutureOf rid), with_futures st' joined)
              | Raised e =>
                  (Raised e,
                   with_futures
                     (resolve (finalize_promise_ (manager woken)) (-1)
                        (futures woken)) woken)
              | Terminate => (Terminate, woken)
              | Blocks => (Blocks, woken)
              end
          end
    end.

(** The transitions of the manager and of the engine behind it. *)
Inductive action : Type :=
| CallInitHPX
| CallFinalizeHPX
| EngineReady
| EngineStartFailed
| EngineExit.

Definition perform (a : action) (p : process) : option process :=
  match a with
  | CallInitHPX =>
      match InitHPX p with
      | (Terminate, _) | (Blocks, _) => None
      | (_, p') => Some p'
      end
  | CallFinalizeHPX =>
      match FinalizeHPX p with
      | (Terminate, _) | (Blocks, _) => None
      | (_, p') => Some p'
      end
  | EngineReady => engine_ready p
  | EngineStartFailed => engine_start_failed p
  | EngineExit => engine_exit p
  end.

Inductive reachable : process -> Prop :=
| reach_boot : reachable boot
| reach_step : forall a p p',
    reachable p -> perform a p = Some p' -> reachable p'.

(* ================================================================= *)
(** ** tsfn_manager.cpp *)

(** A registered [std::shared_ptr<Napi::ThreadSafeFunction>]: the identity
    of the function it points to, or null. *)
Definition tsfn_handle : Type := option nat.

Record TSFNManager : Type := {
  tsfn_list_ : list tsfn_handle;
  releasing_ : bool;
  release_thread_ : bool;         (* release_thread_.joinable() *)
  release_completed_ : bool
}.

Definition TSFNManager_new : TSFNManager := {|
  tsfn_list_ := [];
  releasing_ := false;
  release_thread_ := false;
  release_completed_ := false
|}.

(** [TSFNManager::RegisterTSFN] *)
Definition RegisterTSFN (tsfn : tsfn_handle) (r : TSFNManager)
    : TSFNManager :=
  if releasing_ r then r
  else {| tsfn_list_ := tsfn_list_ r ++ [tsfn];
          releasing_ := releasing_ r;
          release_thread_ := release_thread_ r;
          release_completed_ := release_completed_ r |}.

(** [TSFNManager::ReleaseAllTSFNs]: the registry after the call, and whether
    the call started the release thread.  The call returns as soon as the
    thread exists. *)
Definition ReleaseAllTSFNs (r : TSFNManager) : TSFNManager * bool :=
  if releasing_ r then (r, false)
  else ({| tsfn_list_ := tsfn_list_ r;
           releasing_ := true;
           release_thread_ := true;
           release_completed_ := release_completed_ r |}, true).

(** Where the body of the release thread stands. *)
Inductive release_phase : Type :=
| NotSpawned
| Spawned
| Releasing (tsfn_copy : list tsfn_handle)
| ReleaseDone.

(** [TSFNManager::WaitForReleaseCompletion] returns only once the flag is
    set. *)
Definition WaitForReleaseCompletion (r : TSFNManager) : outcome unit :=
  if release_completed_ r then Returned tt else Blocks.

(* ================================================================= *)
(** ** addon.cpp: FinalizeHPX as a queued job *)

(** [e.what()] of the exceptions of [<future>] (libstdc++ wording). *)
Definition what (e : exception) : string :=
  match e with
  | future_already_retrieved => "std::future_error: Future already retrieved"
  | promise_already_satisfied => "std::future_error: Promise already satisfied"
  | broken_promise => "std::future_error: Broken promise"
  end.

(** The members of a manager die with it, the last declared first:
    [finalize_promise_] and [init_promise_] are dropped, then [hpx_thread_],
    the first member, is destroyed, and a [std::thread] that is still
    joinable ends the process there. *)
Definition destroy_members (p : process) : outcome unit * process :=
  let m := manager p in
  let p' :=
    with_futures
      (drop_promise (drop_promise (futures p) (finalize_promise_ m))
         (init_promise_ m)) p in
  if hpx_thread_ m then (Terminate, p')
  else (Returned tt, with_manager HPXManager_new p').

(** [resetHPXManager]: the singleton is destroyed ([~HPXManager], then the
    members); the next [getHPXManager] builds a new one. *)
Definition resetHPXManager (p : process) : outcome unit * process :=
  let m := manager p in
  if hpx_thread_ m && running_ m then
    (* try { FinalizeHPX().get(); } catch (...) { LOG_ERROR(...); } *)
    match FinalizeHPX p with
    | (Terminate, p') => (Terminate, p')
    | (Blocks, p') => (Blocks, p')
    | (_, p') => destroy_members p'
    end
  else destroy_members p.

(** Where the job queued by the exported [FinalizeHPX] stands. *)
Inductive job_phase : Type :=
| Queued
| Finalized (err : string)     (* manager.FinalizeHPX() and fut.get() done *)
| ManagerReset (err : string)  (* resetHPXManager() done *)
| Executed (err : string)      (* the execute lambda returned *)
| Completed.                   (* the complete lambda ran *)

Record system : Type := {
  proc : process;
  registry : TSFNManager;
  release_thread : release_phase;
  released : list nat;                 (* Release() calls, in order *)
  finalize_job : job_phase;
  deferred : option (settled bool)     (* the promise given to JavaScript *)
}.

(** One step of the job: the statements of the execute lambda in order, then
    the complete lambda on the host thread. *)
Definition job_step (s : system) : option system :=
  match finalize_job s with
  | Queued =>
      match FinalizeHPX (proc s) with
      | (Returned fut, p') =>
          match future_get (futures p') fut with
          | Returned fin_res =>
              let err := if negb (fin_res =? 0)
                         then "Failed to finalize HPX." else "" in
              Some {| proc := p'; registry := registry s;
                      release_thread := release_thread s;
                      released := released s;
                      finalize_job := Finalized err;
                      deferred := deferred s |}
          | Raised e =>
              Some {| proc := p'; registry := registry s;
                      release_thread := release_thread s;
                      released := released s;
                      finalize_job := Executed (what e);
                      deferred := deferred s |}
          | _ => None
          end
      | (Raised e, p') =>
          Some {| proc := p'; registry := registry s;
                  release_thread := release_thread s;
                  released := released s;
                  finalize_job := Executed (what e);
                  deferred := deferred s |}
      | _ => None
      end
  | Finalized err =>
      match resetHPXManager (proc s) with
      | (Returned _, p') =>
          Some {| proc := p'; registry := registry s;
                  release_thread := release_thread s;
                  released := released s;
                  finalize_job := ManagerReset err;
                  deferred := deferred s |}
      | _ => None
      end
  | ManagerReset err =>
      let (r, started) := ReleaseAllTSFNs (registry s) in
      Some {| proc := proc s; registry := r;
              release_thread :=
                if started then Spawned else release_thread s;
              released := released s;
              finalize_job := Executed err;
              deferred := deferred s |}
  | Executed err =>
      Some {| proc := proc s; registry := registry s;
              release_thread := release_thread s;
              released := released s;
              finalize_job := Completed;
              deferred :=
                Some (if negb (String.eqb err "")
                      then Rejected err else Resolved true) |}
  | Completed => None
  end.

(** One step of the lambda run by [release_thread_]. *)
Definition release_step (s : system) : option system :=
  match release_thread s with
  | Spawned =>
      (* tsfn_copy = tsfn_list_; tsfn_list_.clear(); *)
      let r := registry s in
      Some {| proc := proc s;
              registry := {| tsfn_list_ := [];
                             releasing_ := releasing_ r;
                             release_thread_ := release_thread_ r;
                             release_completed_ := release_completed_ r |};
              release_thread := Releasing (tsfn_list_ r);
              released := released s;
              finalize_job := finalize_job s; deferred := deferred s |}
  | Releasing (tsfn :: rest) =>
      (* if (tsfn) tsfn->Release(); *)
      Some {| proc := proc s; registry := registry s;
              release_thread := Releasing rest;
              released := match tsfn with
                          | Some id => released s ++ [id]
                          | None => released s
                          end;
              finalize_job := finalize_job s; deferred := deferred s |}
  | Releasing [] =>
      (* release_completed_ = true; release_cv_.notify_all(); *)
      let r := registry s in
      Some {| proc := proc s;
              registry := {| tsfn_list_ := tsfn_list_ r;
                             releasing_ := releasing_ r;
                             release_thread_ := release_thread_ r;
                             release_completed_ := true |};
              release_thread := ReleaseDone;
              released := released s;
              finalize_job := finalize_job s; deferred := deferred s |}
  | NotSpawned | ReleaseDone => None
  end.

(** The two threads involved, and an interleaving of their steps. *)
Inductive thread : Type := JobThread | ReleaseThread.

Definition thread_step (t : thread) (s : system) : option system :=
  match t with
  | JobThread => job_step s
  | ReleaseThread => release_step s
  end.

Fixpoint run (schedule : list thread) (s : system) : option system :=
  match schedule with
  | [] => Some s
  | t :: rest =>
      match thread_step t s with
      | Some s' => run rest s'
      | None => None
      end
  end.

(** The runtime is up ([InitHPX], then the engine reported ready), the
    handles in [handles] are registered, and a finalize job was queued. *)
Definition running_process : option process :=
  engine_ready (snd (InitHPX boot)).

Definition finalize_queued (p : process) (handles : list tsfn_handle)
    : system :=
  {| proc := p;
     registry := fold_left (fun r h => RegisterTSFN h r) handles
                   TSFNManager_new;
     release_thread := NotSpawned;
     released := [];
     finalize_job := Queued;
     deferred := None |}.

(** A finalize job queued at any later time of the process: the registry,
    a singleton that outlives every manager, is the one [r] left by what
    ran before, with its release thread at [rt] and the handles [done]
    released so far. *)
Definition finalize_queued_on (p : process) (r : TSFNManager)
    (rt : release_phase) (done : list nat) : system :=
  {| proc := p;
     registry := r;
     release_thread := rt;
     released := done;
     finalize_job := Queued;
     deferred := None |}.

(* ================================================================= *)
(** ** A reference algorithm library

    One library meeting [LibraryContract]: insertion sorts, and parallel
    policies that walk a range from its far end. *)

Fixpoint insert_by (lt : Z -> Z -> bool) (x : Z) (l : list Z) : list Z :=
  match l with
  | [] => [x]
  | y :: rest => if lt y x then y :: insert_by lt x rest else x :: l
  end.

Definition insertion_sort_by (lt : Z -> Z -> bool) (l : list Z) : list Z :=
  fold_right (insert_by lt) [] l.

Definition reference_library : AlgorithmLibrary := {|
  lib_sort := fun _ l => insertion_sort_by Z.ltb l;
  lib_partial_sort := fun _ l _ => insertion_sort_by Z.ltb l;
  lib_partial_sort_comp := fun _ comp l _ => insertion_sort_by comp l;
  lib_visit_order := fun p n =>
    match p with
    | seq_policy => seq 0 n
    | _ => rev (seq 0 n)
    end
|}.

(** A host predicate answering "true" for every element, and a key extractor
    giving each element as its own key. *)
Definition accept_all : ThreadSafeFunction := {|
  NonBlockingCall_status := napi_ok;
  jsFn := fun input => JsTypedArray napi_uint8_array (map (fun _ => 1) input)
|}.

(** A host predicate answering three flags whatever it is asked. *)
Definition three_flags : ThreadSafeFunction := {|
  NonBlockingCall_status := napi_ok;
  jsFn := fun _ => JsTypedArray napi_uint8_array [1; 0; 1]
|}.

Definition identity_keys : ThreadSafeFunction := {|
  NonBlockingCall_status := napi_ok;
  jsFn := fun input => JsTypedArray napi_int32_array input
|}.

(** An invariant of the manager: the finalize promise, once created, has
    had its future taken, and the finalize signal is only set after the
    promise was created. *)
Definition finalize_promise_taken (p : process) : Prop :=
  (finalize_signal_promise_ (manager p) = true ->
   finalize_promise_ (manager p) <> None)
  /\ forall pr, finalize_promise_ (manager p) = Some pr ->
                future_retrieved pr = true.

(** The functions behind the handles of a list that are not null. *)
Definition non_null (handles : list tsfn_handle) : list nat :=
  flat_map (fun h => match h with Some id => [id] | None => [] end) handles.

(* ================================================================= *)
(** ** hpx_wrapper.cpp and addon.cpp: the remaining data operations *)

(** [hpx::count(policy, first, last, value)] *)
Definition algo_count (input : list Z) (value : Z) : Z :=
  Z.of_nat (length (filter (fun x => x =? value) input)).

(** [hpx::find(policy, first, last, value)]: the position of the first
    element equal to [value], the length of the range standing for
    [last]. *)
Fixpoint algo_find (input : list Z) (value : Z) : nat :=
  match input with
  | [] => 0%nat
  | x :: rest => if x =? value then 0%nat else S (algo_find rest value)
  end.

(** [hpx::fill(policy, first, last, value)] *)
Definition algo_fill (output : list Z) (value : Z) : list Z :=
  map (fun _ => value) output.

(** [hpx::ends_with(policy, first1, last1, first2, last2)] *)
Definition algo_ends_with (s1 s2 : list Z) : bool :=
  if (length s1 <? length s2)%nat then false
  else algo_equal (skipn (length s1 - length s2) s1) s2.

(** The merge step of [hpx::merge]: an element of the second range goes
    first only when it is less than the head of the first range. *)
Fixpoint merged (l1 l2 : list Z) : list Z :=
  let fix merged_with (l2 : list Z) : list Z :=
    match l1, l2 with
    | [], _ => l2
    | _, [] => l1
    | a1 :: r1, a2 :: r2 =>
        if a2 <? a1 then a2 :: merged_with r2 else a1 :: merged r1 l2
    end
  in merged_with l2.

(** [hpx::merge(policy, first1, last1, first2, last2, dest)] *)
Definition algo_merge (v1 v2 dst : list Z) : result (list Z) :=
  let out := merged v1 v2 in
  if (length out <=? length dst)%nat
  then Ok (out ++ skipn (length out) dst)
  else Undefined.

Definition hpx_count (cfg : HPXUserConfig) (src : list Z) (value : Z)
    : result Z :=
  let input := src in
  run_with_policy cfg (fun _ => Ok (algo_count input value)) (size_of input).

Definition hpx_find (cfg : HPXUserConfig) (src : list Z) (value : Z)
    : result Z :=
  let input := src in
  run_with_policy cfg
    (fun _ =>
       let it := algo_find input value in
       if (it =? length input)%nat then Ok (-1) else Ok (Z.of_nat it))
    (size_of input).

Definition hpx_fill (cfg : HPXUserConfig) (value : Z) (size : nat)
    : result (list Z) :=
  run_with_policy cfg
    (fun _ => let output := repeat 0 size in Ok (algo_fill output value))
    (N.of_nat size).

Definition hpx_ends_with (cfg : HPXUserConfig) (src suffix : list Z)
    : result bool :=
  let s1 := src in
  let s2 := suffix in
  run_with_policy cfg (fun _ => Ok (algo_ends_with s1 s2)) (size_of s1).

Definition hpx_merge (cfg : HPXUserConfig) (src1 src2 : list Z)
    : result (list Z) :=
  let v1 := src1 in
  let v2 := src2 in
  let effective_size := (length v1 + length v2)%nat in
  run_with_policy cfg
    (fun _ =>
       let out := repeat 0 (length v1 + length v2) in algo_merge v1 v2 out)
    (N.of_nat effective_size).

(** [hpx::sort] with a comparator is one more algorithm of the library; the
    wrapper takes it as [sort_comp]. *)
Definition hpx_sort_comp (sort_comp : policy -> (Z -> Z -> bool) -> list Z -> list Z)
    (cfg : HPXUserConfig) (src : list Z) (comp : Z -> Z -> bool)
    : result (list Z) :=
  let input := src in
  run_with_policy cfg (fun p => Ok (sort_comp p comp input))
    (N.of_nat (length src)).

(** [Napi::Number::Int32Value()]: the bottom 32 bits of the integral value
    of the Number, read as a signed integer. *)
Definition Int32Value (number : Z) : Z := to_int32 number.

(** [int32_t value = info[1].As<Napi::Number>().Int32Value();] *)
Definition Count (cfg : HPXUserConfig) (inputArr : list Z) (number : Z)
    : settled Z :=
  let value := Int32Value number in
  QueueAsyncWork (Resolved 0) (hpx_count cfg inputArr value).

Definition Find (cfg : HPXUserConfig) (arr : list Z) (number : Z)
    : settled Z :=
  let value := Int32Value number in
  QueueAsyncWork (Resolved 0) (hpx_find cfg arr value).

Definition Fill (cfg : HPXUserConfig) (inputArr : list Z) (number : Z)
    : settled (list Z) :=
  let dataSize := length inputArr in
  let value := Int32Value number in
  QueueAsyncWork Crashed (hpx_fill cfg value dataSize).

Definition EndsWith (cfg : HPXUserConfig) (mainArr suffixArr : list Z)
    : settled bool :=
  QueueAsyncWork (Resolved false) (hpx_ends_with cfg mainArr suffixArr).

Definition Merge (cfg : HPXUserConfig) (v1 v2 : list Z)
    : settled (list Z) :=
  QueueAsyncWork Crashed (hpx_merge cfg v1 v2).

Definition SortComp
    (sort_comp : policy -> (Z -> Z -> bool) -> list Z -> list Z)
    (cfg : HPXUserConfig) (tsfn : ThreadSafeFunction) (inputArr : list Z)
    : settled (list Z) :=
  let dataSize := length inputArr in
  QueueAsyncWork Crashed
    (keys <- GetKeyArrayBatchUsingTSFN tsfn inputArr ;;
     let inputVec := inputArr in
     let idx := index_array dataSize in
     sortedIdx <- hpx_sort_comp sort_comp cfg idx (key_comp keys) ;;
     gather inputVec sortedIdx).

(** The number of ones in a mask, and the elements a mask of flags keeps. *)
Definition ones (mask : list Z) : nat :=
  length (filter (fun m => m =? 1) mask).

Definition kept_by (mask input : list Z) : list Z :=
  map snd (filter (fun mx => fst mx =? 1) (combine mask input)).

(** A handle that was aborted: calls on it are refused. *)
Definition aborted_handle : ThreadSafeFunction := {|
  NonBlockingCall_status := napi_closing;
  jsFn := fun _ => JsOther
|}.

(** What [SortComp] needs of [hpx::sort] with the comparator it passes:
    the result rearranges the range, and the keys, looked up at the sorted
    indices, never descend. *)
Definition sorts_by_key
    (sort_comp : policy -> (Z -> Z -> bool) -> list Z -> list Z) : Prop :=
  forall p keys l,
    Permutation l (sort_comp p (key_comp keys) l)
    /\ StronglySorted
         (fun a b => nth (Z.to_nat a) keys 0 <= nth (Z.to_nat b) keys 0)
         (sort_comp p (key_comp keys) l).

Definition reference_sort_comp
    : policy -> (Z -> Z -> bool) -> list Z -> list Z :=
  fun _ comp l => insertion_sort_by comp l.

(** An invariant of the manager: every engine thread but a joinable one was
    joined, at most one join ever happened and none before a finalize
    promise existed, and while the engine is starting the thread is joinable
    and [running_] is not set. *)
Definition manager_shape (p : process) : Prop :=
  threads_spawned p
  = (threads_joined p + (if hpx_thread_ (manager p) then 1 else 0))%nat
  /\ (threads_joined p <= 1)%nat
  /\ (finalize_promise_ (manager p) = None -> threads_joined p = 0%nat)
  /\ (engine p = EngineStarting ->
      hpx_thread_ (manager p) = true /\ running_ (manager p) = false).

(** The release thread has just been started on a registry holding
    [handles]. *)
Definition release_started (handles : list tsfn_handle) : system :=
  {| proc := boot;
     registry := {| tsfn_list_ := handles;
                    releasing_ := true;
                    release_thread_ := true;
                    release_completed_ := false |};
     release_thread := Spawned;
     released := [];
     finalize_job := Executed "";
     deferred := None |}.

(* ================================================================= *)
(** ** logging: logger.hpp, logger.cpp, log_config.hpp, log_macros.hpp *)

(** [std::toupper] on one character, in the "C" locale. *)
Definition toupper (c : ascii) : ascii :=
  let n := nat_of_ascii c in
  if ((97 <=? n) && (n <=? 122))%nat then ascii_of_nat (n - 32) else c.

(** [ToUpperCase] of data_conversion.cpp *)
Fixpoint ToUpperCase (str : string) : string :=
  match str with
  | EmptyString => EmptyString
  | String c rest => String (toupper c) (ToUpperCase rest)
  end.

(** [enum class LogLevel { Debug = 0, Info, Warn, Error, None }] *)
Inductive LogLevel : Type :=
| LevelDebug | LevelInfo | LevelWarn | LevelError | LevelNone.

Definition level_value (l : LogLevel) : Z :=
  match l with
  | LevelDebug => 0
  | LevelInfo => 1
  | LevelWarn => 2
  | LevelError => 3
  | LevelNone => 4
  end.

Record Logger : Type := {
  currentLevel_ : LogLevel;
  enabled_ : bool
}.

(** [Logger::Logger()] *)
Definition Logger_new : Logger :=
  {| currentLevel_ := LevelInfo; enabled_ := true |}.

(** [Logger::initialize], [Logger::setLogLevel], [Logger::setEnabled] *)
Definition Logger_initialize (enabled : bool) (level : LogLevel)
    (lg : Logger) : Logger :=
  {| currentLevel_ := level; enabled_ := enabled |}.

Definition Logger_setLogLevel (level : LogLevel) (lg : Logger) : Logger :=
  {| currentLevel_ := level; enabled_ := enabled_ lg |}.

Definition Logger_setEnabled (enabled : bool) (lg : Logger) : Logger :=
  {| currentLevel_ := currentLevel_ lg; enabled_ := enabled |}.

(** [Logger::debug], [info], [warn] and [error]: whether the message is
    written to [std::cerr]. *)
Definition Logger_debug (lg : Logger) : bool :=
  enabled_ lg && (level_value (currentLevel_ lg) <=? level_value LevelDebug).

Definition Logger_info (lg : Logger) : bool :=
  enabled_ lg && (level_value (currentLevel_ lg) <=? level_value LevelInfo).

Definition Logger_warn (lg : Logger) : bool :=
  enabled_ lg && (level_value (currentLevel_ lg) <=? level_value LevelWarn).

Definition Logger_error (lg : Logger) : bool :=
  enabled_ lg && (level_value (currentLevel_ lg) <=? level_value LevelError).

(** [Logger::stringToLogLevel] *)
Definition stringToLogLevel (levelStr : string) : LogLevel :=
  let upperStr := ToUpperCase levelStr in
  if String.eqb upperStr "DEBUG" then LevelDebug
  else if String.eqb upperStr "INFO" then LevelInfo
  else if String.eqb upperStr "WARN" then LevelWarn
  else if String.eqb upperStr "ERROR" then LevelError
  else LevelInfo.

(** The macros of log_levels.hpp, and the build flags log_config.hpp
    looks at. *)
Definition LOG_LEVEL_DEBUG : Z := 0.
Definition LOG_LEVEL_INFO : Z := 1.
Definition LOG_LEVEL_WARN : Z := 2.
Definition LOG_LEVEL_ERROR : Z := 3.

Record build_flags : Type := {
  HPX_ADDON_RELEASE : bool;
  HPX_ADDON_DEBUG : bool;
  HPX_ADDON_WARN_ONLY : bool
}.

Definition CURRENT_LOG_LEVEL (b : build_flags) : Z :=
  if HPX_ADDON_RELEASE b then LOG_LEVEL_INFO
  else if HPX_ADDON_DEBUG b then LOG_LEVEL_DEBUG
  else if HPX_ADDON_WARN_ONLY b then LOG_LEVEL_WARN
  else LOG_LEVEL_INFO.

(** [LOG_DEBUG(msg)] and the other macros: compiled to nothing when the
    level of the build is above theirs, a call of the logger otherwise. *)
Definition LOG_DEBUG (b : build_flags) (lg : Logger) : bool :=
  if CURRENT_LOG_LEVEL b <=? LOG_LEVEL_DEBUG then Logger_debug lg else false.

Definition LOG_INFO (b : build_flags) (lg : Logger) : bool :=
  if CURRENT_LOG_LEVEL b <=? LOG_LEVEL_INFO then Logger_info lg else false.

Definition LOG_WARN (b : build_flags) (lg : Logger) : bool :=
  if CURRENT_LOG_LEVEL b <=? LOG_LEVEL_WARN then Logger_warn lg else false.

Definition LOG_ERROR (b : build_flags) (lg : Logger) : bool :=
  if CURRENT_LOG_LEVEL b <=? LOG_LEVEL_ERROR then Logger_error lg else false.

(* ================================================================= *)
(** ** hpx_config.cpp *)

(** A property value of the configuration object: a string, a number (by
    the integer [get<int64_t>()] later makes of it), a boolean, or anything
    else. *)
Inductive napi_value : Type :=
| NapiString (s : string)
| NapiNumber (as_int64 : Z)
| NapiBoolean (b : bool)
| NapiOther.

(** The own properties of the object, in the order of
    [GetPropertyNames]. *)
Definition napi_object : Type := list (string * napi_value).

Inductive json : Type :=
| JString (s : string)
| JNumber (as_int64 : Z)
| JBoolean (b : bool).

Definition json_object : Type := list (string * json).

(** [j[key] = v] *)
Definition json_set (key : string) (v : json) (j : json_object)
    : json_object :=
  (key, v) :: filter (fun kv => negb (String.eqb key (fst kv))) j.

(** [j.contains(key)] and [j[key]] *)
Fixpoint json_find (j : json_object) (key : string) : option json :=
  match j with
  | [] => None
  | (k, v) :: rest => if String.eqb key k then Some v else json_find rest key
  end.

(** The loop copying the properties into [j]: values that are neither
    string, number nor boolean are left out. *)
Definition to_json (configObj : napi_object) : json_object :=
  fold_left
    (fun j kv =>
       match snd kv with
       | NapiString s => json_set (fst kv) (JString s) j
       | NapiNumber num => json_set (fst kv) (JNumber num) j
       | NapiBoolean b => json_set (fst kv) (JBoolean b) j
       | NapiOther => j
       end)
    configObj [].

(** [get<std::string>()], [get<int64_t>()], [get<bool>()]: [None] when the
    value has another type and the call throws. *)
Definition get_string (v : json) : option string :=
  match v with JString s => Some s | _ => None end.

Definition get_int64 (v : json) : option Z :=
  match v with JNumber z => Some z | _ => None end.

Definition get_bool (v : json) : option bool :=
  match v with JBoolean b => Some b | _ => None end.

Definition with_executionPolicy (s : string) (c : HPXUserConfig)
    : HPXUserConfig :=
  {| executionPolicy := s; threshold := threshold c;
     threadCount := threadCount c; loggingEnabled := loggingEnabled c;
     logLevel := logLevel c; addonName := addonName c |}.

Definition with_threshold (n : N) (c : HPXUserConfig) : HPXUserConfig :=
  {| executionPolicy := executionPolicy c; threshold := n;
     threadCount := threadCount c; loggingEnabled := loggingEnabled c;
     logLevel := logLevel c; addonName := addonName c |}.

(** [SetThreadCount] *)
Definition SetThreadCount (count : N) (c : HPXUserConfig) : HPXUserConfig :=
  {| executionPolicy := executionPolicy c; threshold := threshold c;
     threadCount := count; loggingEnabled := loggingEnabled c;
     logLevel := logLevel c; addonName := addonName c |}.

Definition with_loggingEnabled (b : bool) (c : HPXUserConfig)
    : HPXUserConfig :=
  {| executionPolicy := executionPolicy c; threshold := threshold c;
     threadCount := threadCount c; loggingEnabled := b;
     logLevel := logLevel c; addonName := addonName c |}.

Definition with_logLevel (s : string) (c : HPXUserConfig) : HPXUserConfig :=
  {| executionPolicy := executionPolicy c; threshold := threshold c;
     threadCount := threadCount c; loggingEnabled := loggingEnabled c;
     logLevel := s; addonName := addonName c |}.

Definition with_addonName (s : string) (c : HPXUserConfig) : HPXUserConfig :=
  {| executionPolicy := executionPolicy c; threshold := threshold c;
     threadCount := threadCount c; loggingEnabled := loggingEnabled c;
     logLevel := logLevel c; addonName := s |}.

(** The six [if (j.contains(...))] blocks of
    [SetUserConfigFromNapiObject], each acting on [g_user_config]; [None]
    when its [get] throws. *)
Definition parse_executionPolicy (j : json_object) (c : HPXUserConfig)
    : option HPXUserConfig :=
  match json_find j "executionPolicy" with
  | None => Some c
  | Some v =>
      match get_string v with
      | None => None
      | Some policy =>
          if String.eqb policy "seq" || String.eqb policy "par"
             || String.eqb policy "par_unseq"
          then Some (with_executionPolicy policy c)
          else Some c
      end
  end.

Definition parse_threshold (j : json_object) (c : HPXUserConfig)
    : option HPXUserConfig :=
  match json_find j "threshold" with
  | None => Some c
  | Some v =>
      match get_int64 v with
      | None => None
      | Some t => if 0 <? t then Some (with_threshold (Z.to_N t) c)
                  else Some c
      end
  end.

Definition parse_threadCount (j : json_object) (c : HPXUserConfig)
    : option HPXUserConfig :=
  match json_find j "threadCount" with
  | None => Some c
  | Some v =>
      match get_int64 v with
      | None => None
      | Some tc => if 0 <? tc then Some (SetThreadCount (Z.to_N tc) c)
                   else Some c
      end
  end.

Definition parse_loggingEnabled (j : json_object) (c : HPXUserConfig)
    : option HPXUserConfig :=
  match json_find j "loggingEnabled" with
  | None => Some c
  | Some v =>
      match get_bool v with
      | None => None
      | Some b => Some (with_loggingEnabled b c)
      end
  end.

Definition parse_logLevel (j : json_object) (c : HPXUserConfig)
    : option HPXUserConfig :=
  match json_find j "logLevel" with
  | None => Some c
  | Some v =>
      match get_string v with
      | None => None
      | Some l =>
          let level := ToUpperCase l in
          if String.eqb level "DEBUG" || String.eqb level "INFO"
             || String.eqb level "WARN" || String.eqb level "ERROR"
          then Some (with_logLevel level c)
          else Some (with_logLevel "INFO" c)
      end
  end.

Definition parse_addonName (j : json_object) (c : HPXUserConfig)
    : option HPXUserConfig :=
  match json_find j "addonName" with
  | None => Some c
  | Some v =>
      match get_string v with
      | None => None
      | Some name => if negb (String.eqb name "")
                     then Some (with_addonName name c) else Some c
      end
  end.

(** Statements run in order on the configuration; the first that throws
    ends the run and leaves what the earlier ones wrote. *)
Fixpoint in_order (blocks : list (HPXUserConfig -> option HPXUserConfig))
    (c : HPXUserConfig) : HPXUserConfig * bool :=
  match blocks with
  | [] => (c, true)
  | block :: rest =>
      match block c with
      | Some c' => in_order rest c'
      | None => (c, false)
      end
  end.

(** The level handed to [Logger::initialize]. *)
Definition level_of_config (c : HPXUserConfig) : LogLevel :=
  if String.eqb (logLevel c) "DEBUG" then LevelDebug
  else if String.eqb (logLevel c) "INFO" then LevelInfo
  else if String.eqb (logLevel c) "WARN" then LevelWarn
  else if String.eqb (logLevel c) "ERROR" then LevelError
  else LevelInfo.

(** The two globals the function writes. *)
Record globals : Type := {
  g_user_config : HPXUserConfig;
  the_logger : Logger
}.

(** [SetUserConfigFromNapiObject]: the globals afterwards, and whether the
    function returned ([false]: one of the [get] calls threw). *)
Definition SetUserConfigFromNapiObject (configObj : napi_object)
    (g : globals) : globals * bool :=
  let j := to_json configObj in
  let r := in_order
             [parse_executionPolicy j; parse_threshold j;
              parse_threadCount j; parse_loggingEnabled j;
              parse_logLevel j; parse_addonName j]
             (g_user_config g) in
  if snd r then
    ({| g_user_config := fst r;
        the_logger :=
          Logger_initialize (loggingEnabled (fst r))
            (level_of_config (fst r)) (the_logger g) |}, true)
  else
    ({| g_user_config := fst r; the_logger := the_logger g |}, false).

(** What the addon starts from. *)
Definition initial_globals : globals :=
  {| g_user_config := default_config; the_logger := Logger_new |}.

(** The values the configuration keeps to: a known policy name, a
    positive threshold and thread count, a known level name and a name for
    the addon. *)
Definition valid_config (c : HPXUserConfig) : Prop :=
  (executionPolicy c = "seq" \/ executionPolicy c = "par"
   \/ executionPolicy c = "par_unseq")
  /\ (0 < threshold c)%N
  /\ (0 < threadCount c)%N
  /\ (logLevel c = "DEBUG" \/ logLevel c = "INFO"
      \/ logLevel c = "WARN" \/ logLevel c = "ERROR")
  /\ addonName c <> "".

(** The property names the function looks for. *)
Definition known_keys : list string :=
  ["executionPolicy"; "threshold"; "threadCount"; "loggingEnabled";
   "logLevel"; "addonName"].

(** *** The properties, in the words of the specification *)

(** "Same length and element-wise equal". *)
Definition same_length_and_elements (v1 v2 : list Z) : bool :=
  (length v1 =? length v2)%nat
  && forallb (fun i => nth i v1 0 =? nth i v2 0) (seq 0 (length v1)).

(** A response has the right shape for a request of [n] elements when it is
    a typed array of the expected element kind holding [n] elements. *)
Definition well_shaped (expected : napi_typedarray_type) (n : nat)
    (response : js_value) : bool :=
  match response with
  | JsTypedArray kind elements =>
      typedarray_type_eqb kind expected && (length elements =? n)%nat
  | JsOther => false
  end.

(* ================================================================= *)
(** * Properties *)

(** ** The execution policy *)

Lemma configured_policy_by_name (cfg : HPXUserConfig) :
  configured_policy cfg =
  if String.eqb (executionPolicy cfg) "seq" then seq_policy
  else if String.eqb (executionPolicy cfg) "par_unseq" then par_unseq_policy
  else par_policy.
Proof.
  unfold configured_policy.
  destruct (executionPolicy cfg) as [|c s]; [reflexivity|].
  repeat
    (destruct c as [[] [] [] [] [] [] [] []]; try reflexivity;
     destruct s as [|c s]; try reflexivity).
Qed.

(** C5.  Whatever operation [f] is dispatched and whatever the
    configuration, [run_with_policy] runs [f] under the Sequential policy
    when the size is below the configured threshold, and under the policy
    the configuration names (Parallel unless it names "seq" or "par_unseq")
    when the size is at or above the threshold. *)
Theorem run_with_policy_by_threshold :
  forall (R : Type) (cfg : HPXUserConfig) (f : policy -> R) (size : N),
    run_with_policy cfg f size =
    f (if (size <? threshold cfg)%N then seq_policy
       else configured_policy cfg).
Proof.
  intros R cfg f size.
  unfold run_with_policy.
  rewrite configured_policy_by_name.
  rewrite N.ltb_antisym.
  destruct (threshold cfg <=? size)%N; simpl; [|reflexivity].
  destruct (String.eqb (executionPolicy cfg) "seq"); [reflexivity|].
  destruct (String.eqb (executionPolicy cfg) "par_unseq"); reflexivity.
Qed.

(** An operation that does not depend on the policy gives its value under
    every configuration. *)
Lemma run_with_policy_const :
  forall (R : Type) (cfg : HPXUserConfig) (f : policy -> R) (size : N) (v : R),
    (forall p, f p = v) -> run_with_policy cfg f size = v.
Proof.
  intros R cfg f size v Hf.
  unfold run_with_policy.
  destruct (negb _); [apply Hf|].
  destruct (String.eqb _ "seq"); [apply Hf|].
  destruct (String.eqb _ "par_unseq"); apply Hf.
Qed.

(** ** copyN *)

Lemma length_repeat_zero (n : nat) : length (repeat 0 n) = n.
Proof. apply repeat_length. Qed.

Lemma hpx_copy_n_in_range :
  forall cfg src count,
    (count <= length src)%nat ->
    hpx_copy_n cfg src count = Ok (firstn count src).
Proof.
  intros cfg src count Hle.
  unfold hpx_copy_n, read_range.
  apply Nat.leb_le in Hle as Hb. rewrite Hb. simpl.
  apply run_with_policy_const. intros _.
  unfold algo_copy_n.
  rewrite length_firstn, length_repeat_zero, Nat.min_l by assumption.
  rewrite Nat.leb_refl. simpl.
  rewrite firstn_firstn, Nat.min_id.
  rewrite skipn_all2 by (rewrite length_repeat_zero; lia).
  now rewrite app_nil_r.
Qed.

Lemma Uint32Value_bound :
  forall number, Z.of_nat (Uint32Value number) < 2^32.
Proof.
  intros number. unfold Uint32Value.
  pose proof (Z.mod_pos_bound number (2^32) ltac:(lia)). lia.
Qed.

Lemma Uint32Value_in_range :
  forall number, 0 <= number < 2^32 -> Uint32Value number = Z.to_nat number.
Proof.
  intros number H. unfold Uint32Value. now rewrite Z.mod_small.
Qed.

Lemma Uint32Value_of_size :
  forall n : nat, Z.of_nat n < 2^32 -> Uint32Value (Z.of_nat n) = n.
Proof.
  intros n H. rewrite Uint32Value_in_range by lia. apply Nat2Z.id.
Qed.

Lemma CopyN_of_the_count_read :
  forall (cfg : HPXUserConfig) (inputArr : list Z) (number : Z),
    CopyN cfg inputArr number =
    Resolved (firstn (Nat.min (Uint32Value number) (length inputArr))
                inputArr).
Proof.
  intros cfg inputArr number.
  unfold CopyN.
  destruct (Nat.ltb_spec (length inputArr) (Uint32Value number))
    as [Hgt|Hle].
  - rewrite hpx_copy_n_in_range by lia.
    rewrite Nat.min_r by lia. reflexivity.
  - rewrite hpx_copy_n_in_range by lia.
    rewrite Nat.min_l by lia. reflexivity.
Qed.

(** A requested count of 2^32 + 2 on an array of three elements: the
    count is read as 2, and [CopyN] resolves with two elements, not with the
    first [min (2^32 + 2) 3 = 3]. *)
Lemma CopyN_count_above_32_bits :
  CopyN default_config [1; 2; 3] 4294967298 = Resolved [1; 2]
  /\ firstn (Nat.min (Z.to_nat 4294967298) (length [1; 2; 3])) [1; 2; 3]
     = [1; 2; 3]
  /\ CopyN default_config [1; 2; 3] 4294967298
     <> Resolved
          (firstn (Nat.min (Z.to_nat 4294967298) (length [1; 2; 3]))
             [1; 2; 3]).
Proof.
  assert (Hmin : Nat.min (Z.to_nat 4294967298) (length [1; 2; 3]) = 3%nat)
    by (change (length [1; 2; 3]) with 3%nat; lia).
  assert (Hcopy : CopyN default_config [1; 2; 3] 4294967298
                  = Resolved [1; 2]).
  { rewrite CopyN_of_the_count_read.
    change (Uint32Value 4294967298) with 2%nat. reflexivity. }
  split; [exact Hcopy|]. rewrite Hmin, Hcopy.
  split; [reflexivity|discriminate].
Qed.

(** C8.  For every input array of length [n] and every requested count,
    [CopyN] reads the count as an unsigned 32-bit integer, clamps what it
    read to [n] and resolves with exactly the first
    [min (count mod 2^32) n] elements.  For a count below 2^32 these are
    the first [min count n] elements, so that such a count above [n]
    succeeds. *)
Theorem CopyN_clamps_count :
  forall (cfg : HPXUserConfig) (inputArr : list Z) (count : Z),
    CopyN cfg inputArr count
    = Resolved
        (firstn (Nat.min (Z.to_nat (count mod 2^32)) (length inputArr))
           inputArr)
    /\ (0 <= count < 2^32 ->
        CopyN cfg inputArr count
        = Resolved
            (firstn (Nat.min (Z.to_nat count) (length inputArr)) inputArr)).
Proof.
  intros cfg inputArr count. split.
  - apply CopyN_of_the_count_read.
  - intros Hc. rewrite CopyN_of_the_count_read.
    now rewrite Uint32Value_in_range.
Qed.

Lemma CopyN_clamps_count_witness :
  CopyN default_config [1; 2; 3] 5 = Resolved [1; 2; 3].
Proof.
  destruct (CopyN_clamps_count default_config [1; 2; 3] 5) as [_ H].
  rewrite H; [reflexivity|]. split; [discriminate|reflexivity].
Defined.

(** ** equal *)

Lemma algo_equal_iff :
  forall l1 l2, algo_equal l1 l2 = true <-> l1 = l2.
Proof.
  induction l1 as [|x r1 IH]; intros [|y r2]; simpl; split;
    try congruence; try reflexivity.
  - intros H. apply andb_true_iff in H as [Hx Hr].
    apply Z.eqb_eq in Hx. apply IH in Hr. congruence.
  - intros H. injection H as -> ->.
    rewrite Z.eqb_refl. simpl. now apply IH.
Qed.

Lemma same_length_and_elements_iff :
  forall v1 v2, same_length_and_elements v1 v2 = true <-> v1 = v2.
Proof.
  intros v1 v2. unfold same_length_and_elements. split.
  - intros H. apply andb_true_iff in H as [Hlen Hall].
    apply Nat.eqb_eq in Hlen.
    rewrite forallb_forall in Hall.
    apply nth_ext with (d := 0) (d' := 0); [assumption|].
    intros i Hi. apply Z.eqb_eq. apply Hall. apply in_seq. lia.
  - intros ->. rewrite Nat.eqb_refl. simpl.
    apply forallb_forall. intros i _. apply Z.eqb_refl.
Qed.

Lemma algo_equal_same_length_and_elements :
  forall v1 v2, algo_equal v1 v2 = same_length_and_elements v1 v2.
Proof.
  intros v1 v2.
  destruct (algo_equal v1 v2) eqn:E1;
    destruct (same_length_and_elements v1 v2) eqn:E2; try reflexivity.
  - apply algo_equal_iff in E1.
    apply same_length_and_elements_iff in E1. congruence.
  - apply same_length_and_elements_iff in E2.
    apply algo_equal_iff in E2. congruence.
Qed.

(** C10.  For every pair of arrays, [Equal] resolves, and with [true]
    exactly when the arrays have the same length and agree at every
    position; arrays of different lengths give [false] (no common prefix is
    compared, nothing is rejected). *)
Theorem Equal_same_length_and_elements :
  forall (cfg : HPXUserConfig) (v1 v2 : list Z),
    Equal cfg v1 v2 = Resolved (same_length_and_elements v1 v2)
    /\ (same_length_and_elements v1 v2 = true <->
        length v1 = length v2
        /\ forall i, (i < length v1)%nat -> nth i v1 0 = nth i v2 0)
    /\ (length v1 <> length v2 -> Equal cfg v1 v2 = Resolved false).
Proof.
  intros cfg v1 v2.
  assert (HE : Equal cfg v1 v2 = Resolved (same_length_and_elements v1 v2)).
  { unfold Equal, hpx_equal.
    rewrite run_with_policy_const
      with (v := Ok (same_length_and_elements v1 v2)); [reflexivity|].
    intros _. now rewrite algo_equal_same_length_and_elements. }
  split; [exact HE|]. split.
  - rewrite same_length_and_elements_iff. split.
    + intros ->. split; [reflexivity|]. intros; reflexivity.
    + intros [Hlen Hnth]. now apply nth_ext with (d := 0) (d' := 0).
  - intros Hne. rewrite HE. f_equal.
    destruct (same_length_and_elements v1 v2) eqn:E; [|reflexivity].
    apply same_length_and_elements_iff in E. subst. congruence.
Qed.

(** ** The batch callbacks *)

Lemma typedarray_type_eqb_eq :
  forall a b, typedarray_type_eqb a b = true <-> a = b.
Proof. intros [] []; simpl; split; congruence. Qed.

Lemma memcpy_whole :
  forall src n, length src = n -> memcpy (repeat 0 n) src n = Ok src.
Proof.
  intros src n <-. unfold memcpy.
  rewrite length_repeat_zero, Nat.leb_refl. simpl.
  rewrite firstn_all.
  rewrite skipn_all2 by (rewrite length_repeat_zero; lia).
  now rewrite app_nil_r.
Qed.

Section BatchCall.
Variable expected : napi_typedarray_type.
Variables failed_call not_typed same_length : string.
Hypothesis not_typed_nonempty : not_typed <> "".
Hypothesis same_length_nonempty : same_length <> "".

Lemma batch_call_well_shaped :
  forall tsfn data,
    NonBlockingCall_status tsfn = napi_ok ->
    well_shaped expected (length data) (jsFn tsfn data) = true ->
    exists elements,
      jsFn tsfn data = JsTypedArray expected elements
      /\ length elements = length data
      /\ batch_call expected failed_call not_typed same_length tsfn data
         = Ok elements.
Proof.
  intros tsfn data Hst Hshape.
  unfold batch_call, batch_callback. rewrite Hst.
  destruct (jsFn tsfn data) as [kind elements|]; simpl in Hshape;
    [|discriminate].
  apply andb_true_iff in Hshape as [Hk Hl].
  rewrite Hk, Hl. simpl.
  apply typedarray_type_eqb_eq in Hk. subst kind.
  apply Nat.eqb_eq in Hl.
  exists elements. rewrite (memcpy_whole _ _ Hl). simpl.
  repeat split; auto.
Qed.

Lemma batch_call_ill_shaped :
  forall tsfn data,
    NonBlockingCall_status tsfn = napi_ok ->
    well_shaped expected (length data) (jsFn tsfn data) = false ->
    batch_call expected failed_call not_typed same_length tsfn data
    = Throw not_typed
    \/ batch_call expected failed_call not_typed same_length tsfn data
       = Throw same_length.
Proof.
  intros tsfn data Hst Hshape.
  unfold batch_call, batch_callback. rewrite Hst.
  destruct (jsFn tsfn data) as [kind elements|]; simpl in *.
  - right.
    replace (negb (typedarray_type_eqb kind expected)
             || negb (length elements =? length data)%nat) with true
      by (rewrite <- negb_andb, Hshape; reflexivity).
    simpl.
    destruct (String.eqb_spec same_length ""); [contradiction|reflexivity].
  - left.
    destruct (String.eqb_spec not_typed ""); [contradiction|reflexivity].
Qed.

Lemma batch_call_ok_inv :
  forall tsfn data buffer,
    batch_call expected failed_call not_typed same_length tsfn data
    = Ok buffer ->
    jsFn tsfn data = JsTypedArray expected buffer
    /\ length buffer = length data.
Proof.
  intros tsfn data buffer Hok.
  destruct (NonBlockingCall_status tsfn) eqn:Hst;
    try (unfold batch_call in Hok; rewrite Hst in Hok; discriminate).
  destruct (well_shaped expected (length data) (jsFn tsfn data)) eqn:Hs.
  - destruct (batch_call_well_shaped _ _ Hst Hs) as (els & Hr & Hl & Hc).
    rewrite Hc in Hok. injection Hok as <-. auto.
  - destruct (batch_call_ill_shaped _ _ Hst Hs) as [Hc|Hc];
      rewrite Hc in Hok; discriminate.
Qed.
End BatchCall.

(** C4.  Whenever the host function is invoked and its response has the
    wrong length or the wrong element kind, both batch callbacks fail with a
    ShapeMismatch error; and whenever they succeed, what they return is the
    response itself, of the length of the request: nothing is cut off or
    filled in. *)
Theorem batch_response_shape :
  forall (tsfn : ThreadSafeFunction) (data : list Z),
    NonBlockingCall_status tsfn = napi_ok ->
    (well_shaped napi_uint8_array (length data) (jsFn tsfn data) = false ->
     exists what,
       GetPredicateMaskBatchUsingTSFN tsfn data = Throw what
       /\ ShapeMismatch what)
    /\ (well_shaped napi_int32_array (length data) (jsFn tsfn data) = false ->
        exists what,
          GetKeyArrayBatchUsingTSFN tsfn data = Throw what
          /\ ShapeMismatch what)
    /\ (forall mask,
          GetPredicateMaskBatchUsingTSFN tsfn data = Ok mask ->
          jsFn tsfn data = JsTypedArray napi_uint8_array mask
          /\ length mask = length data)
    /\ (forall keys,
          GetKeyArrayBatchUsingTSFN tsfn data = Ok keys ->
          jsFn tsfn data = JsTypedArray napi_int32_array keys
          /\ length keys = length data).
Proof.
  intros tsfn data Hst. repeat split.
  - intros Hs.
    destruct (batch_call_ill_shaped napi_uint8_array
                "Failed NonBlockingCall for predicate."
                "Predicate must return a typed array (Uint8Array)."
                "Predicate must return a Uint8Array of same length."
                ltac:(discriminate) ltac:(discriminate) tsfn data Hst Hs)
      as [Hc|Hc]; eexists; (split; [exact Hc|]); unfold ShapeMismatch; auto.
  - intros Hs.
    destruct (batch_call_ill_shaped napi_int32_array
                "Failed NonBlockingCall for key extraction."
                "Key extractor must return an Int32Array of same length as input."
                "Key extractor must return Int32Array of same length."
                ltac:(discriminate) ltac:(discriminate) tsfn data Hst Hs)
      as [Hc|Hc]; eexists; (split; [exact Hc|]); unfold ShapeMismatch; auto.
  - eapply batch_call_ok_inv; try eassumption; discriminate.
  - eapply batch_call_ok_inv; try eassumption; discriminate.
  - eapply batch_call_ok_inv; try eassumption; discriminate.
  - eapply batch_call_ok_inv; try eassumption; discriminate.
Qed.

(** A host function answering three flags to a request of two elements. *)
Lemma batch_response_shape_witness :
  exists what,
    GetPredicateMaskBatchUsingTSFN three_flags [10; 20] = Throw what
    /\ ShapeMismatch what.
Proof.
  apply (batch_response_shape three_flags [10; 20]); reflexivity.
Defined.

(** ** Sorting *)

Lemma insert_by_permutation :
  forall lt x l, Permutation (x :: l) (insert_by lt x l).
Proof.
  intros lt x l. induction l as [|y rest IH]; simpl.
  - apply Permutation_refl.
  - destruct (lt y x).
    + eapply perm_trans; [apply perm_swap|]. now apply perm_skip.
    + apply Permutation_refl.
Qed.

Lemma insertion_sort_by_permutation :
  forall lt l, Permutation l (insertion_sort_by lt l).
Proof.
  intros lt l. induction l as [|x rest IH]; simpl.
  - apply perm_nil.
  - eapply perm_trans; [apply perm_skip, IH|].
    apply insert_by_permutation.
Qed.

Lemma insert_by_ltb_sorted :
  forall x l, Sorted Z.le l -> Sorted Z.le (insert_by Z.ltb x l).
Proof.
  intros x l Hs. induction Hs as [|y rest Hrest IH Hhd]; simpl.
  - repeat constructor.
  - destruct (Z.ltb_spec y x) as [Hlt|Hge].
    + constructor; [exact IH|].
      destruct rest as [|z rest']; simpl.
      * constructor. lia.
      * destruct (Z.ltb_spec z x); constructor; [|lia].
        now inversion Hhd.
    + constructor; [now constructor|]. now constructor.
Qed.

Lemma insertion_sort_ltb_sorted :
  forall l, StronglySorted Z.le (insertion_sort_by Z.ltb l).
Proof.
  intros l. apply Sorted_StronglySorted.
  - intros a b c; apply Z.le_trans.
  - induction l as [|x rest IH]; simpl.
    + constructor.
    + now apply insert_by_ltb_sorted.
Qed.

(** An ascending list is determined by its elements. *)
Lemma sorted_permutation_unique :
  forall l1 l2,
    StronglySorted Z.le l1 -> StronglySorted Z.le l2 ->
    Permutation l1 l2 -> l1 = l2.
Proof.
  induction l1 as [|x r1 IH]; intros l2 H1 H2 HP.
  - apply Permutation_nil in HP. now subst.
  - destruct l2 as [|y r2].
    + apply Permutation_sym, Permutation_nil in HP. discriminate.
    + inversion H1 as [|? ? Hs1 Hall1]; subst.
      inversion H2 as [|? ? Hs2 Hall2]; subst.
      assert (Hxy : x = y).
      { assert (Hy : In y (x :: r1))
          by (eapply Permutation_in; [apply Permutation_sym, HP|now left]).
        assert (Hx : In x (y :: r2))
          by (eapply Permutation_in; [apply HP|now left]).
        rewrite Forall_forall in Hall1, Hall2.
        destruct Hy as [->|Hy]; [reflexivity|].
        destruct Hx as [->|Hx]; [reflexivity|].
        apply Hall1 in Hy. apply Hall2 in Hx. lia. }
      subst y. f_equal.
      apply IH; try assumption.
      now apply Permutation_cons_inv in HP.
Qed.

Lemma reference_library_contract : LibraryContract reference_library.
Proof.
  constructor; simpl.
  - intros _ l. apply insertion_sort_ltb_sorted.
  - intros _ l. apply insertion_sort_by_permutation.
  - intros _ comp l _ _. apply insertion_sort_by_permutation.
  - intros [] n; [apply Permutation_refl| |];
      apply Permutation_sym, Permutation_rev.
  - reflexivity.
Qed.

(** Every library meeting the contract sorts like the reference one. *)
Lemma lib_sort_is_insertion_sort :
  forall L, LibraryContract L ->
    forall p l, lib_sort L p l = insertion_sort_by Z.ltb l.
Proof.
  intros L HL p l.
  apply sorted_permutation_unique.
  - apply (sort_sorted L HL).
  - apply insertion_sort_ltb_sorted.
  - eapply perm_trans.
    + apply Permutation_sym, (sort_permutes L HL).
    + apply insertion_sort_by_permutation.
Qed.

Lemma Sort_is_insertion_sort :
  forall L cfg, LibraryContract L ->
    forall x, Sort L cfg x = Resolved (insertion_sort_by Z.ltb x).
Proof.
  intros L cfg HL x. unfold Sort, hpx_sort.
  rewrite run_with_policy_const
    with (v := Ok (insertion_sort_by Z.ltb x)); [reflexivity|].
  intros p. now rewrite lib_sort_is_insertion_sort.
Qed.

Lemma insertion_sort_idempotent :
  forall x,
    insertion_sort_by Z.ltb (insertion_sort_by Z.ltb x) =
    insertion_sort_by Z.ltb x.
Proof.
  intros x. apply sorted_permutation_unique.
  - apply insertion_sort_ltb_sorted.
  - apply insertion_sort_ltb_sorted.
  - apply Permutation_sym, insertion_sort_by_permutation.
Qed.

(** C7.  With any library whose [hpx::sort] meets its contract and under
    any configuration: sorting [5,3,1,4,2] resolves with [1,2,3,4,5], sorting
    the empty sequence resolves with the empty sequence, and sorting the
    result of a sort resolves with that same result. *)
Theorem Sort_examples_and_idempotence :
  forall (L : AlgorithmLibrary) (cfg : HPXUserConfig),
    LibraryContract L ->
    Sort L cfg [5; 3; 1; 4; 2] = Resolved [1; 2; 3; 4; 5]
    /\ Sort L cfg [] = Resolved []
    /\ forall x, exists sorted,
         Sort L cfg x = Resolved sorted
         /\ Sort L cfg sorted = Resolved sorted.
Proof.
  intros L cfg HL. repeat split.
  - now rewrite Sort_is_insertion_sort.
  - now rewrite Sort_is_insertion_sort.
  - intros x. exists (insertion_sort_by Z.ltb x).
    rewrite !Sort_is_insertion_sort by assumption.
    now rewrite insertion_sort_idempotent.
Qed.

Lemma Sort_examples_and_idempotence_witness :
  Sort reference_library default_config [5; 3; 1; 4; 2]
  = Resolved [1; 2; 3; 4; 5]
  /\ Sort reference_library default_config [] = Resolved []
  /\ forall x, exists sorted,
       Sort reference_library default_config x = Resolved sorted
       /\ Sort reference_library default_config sorted = Resolved sorted.
Proof.
  apply (Sort_examples_and_idempotence reference_library default_config).
  exact reference_library_contract.
Defined.

(** ** countIf and copyIf under a mask of ones *)

Lemma apply_pred_all_true :
  forall (input : list Z) (n : nat) (visit : list nat) (cursor : nat),
    (forall i, In i visit -> (i < length input)%nat) ->
    (cursor + length visit <= n)%nat ->
    apply_pred (MaskPredicate (repeat 1 n)) input visit cursor
    = Ok (map (fun i => (i, true)) visit).
Proof.
  intros input n visit.
  induction visit as [|i rest IH]; intros cursor Hin Hlen; simpl.
  - reflexivity.
  - destruct (nth_error input i) as [x|] eqn:Hx.
    + unfold MaskPredicate at 1.
      rewrite nth_error_repeat by (simpl in Hlen; lia).
      simpl.
      rewrite IH; [reflexivity| |simpl in Hlen; lia].
      intros j Hj. apply Hin. now right.
    + apply nth_error_None in Hx.
      specialize (Hin i (or_introl eq_refl)). lia.
Qed.

Lemma flag_of_all_true :
  forall (visit : list nat) (i : nat),
    In i visit -> flag_of (map (fun j => (j, true)) visit) i = true.
Proof.
  induction visit as [|j rest IH]; intros i Hi; simpl.
  - contradiction.
  - destruct (Nat.eqb_spec i j) as [_|Hne]; [reflexivity|].
    apply IH. destruct Hi as [Hi|Hi]; [congruence|assumption].
Qed.

Lemma map_snd_combine_seq :
  forall (input : list Z) (start : nat),
    map snd (combine (seq start (length input)) input) = input.
Proof.
  induction input as [|x rest IH]; intros start; simpl.
  - reflexivity.
  - now rewrite IH.
Qed.

Lemma selected_everything :
  forall (fs : list (nat * bool)) (input : list Z),
    (forall i, (i < length input)%nat -> flag_of fs i = true) ->
    selected fs input = input.
Proof.
  intros fs input Hall. unfold selected.
  rewrite forallb_filter_id; [apply map_snd_combine_seq|].
  apply forallb_forall. intros [i x] Hix. simpl.
  apply Hall. apply in_combine_l in Hix. apply in_seq in Hix. lia.
Qed.

Lemma visit_order_covers :
  forall L, LibraryContract L ->
    forall p n,
      length (lib_visit_order L p n) = n
      /\ forall i, In i (lib_visit_order L p n) <-> (i < n)%nat.
Proof.
  intros L HL p n.
  pose proof (visit_each_once L HL p n) as HP. split.
  - rewrite (Permutation_length HP). apply length_seq.
  - intros i. split; intros Hi.
    + apply (Permutation_in _ HP) in Hi. apply in_seq in Hi. lia.
    + apply (Permutation_in _ (Permutation_sym HP)). apply in_seq. lia.
Qed.

Lemma apply_pred_mask_of_ones :
  forall L, LibraryContract L ->
    forall p input,
      exists fs,
        apply_pred (MaskPredicate (repeat 1 (length input))) input
          (lib_visit_order L p (length input)) 0%nat = Ok fs
        /\ selected fs input = input.
Proof.
  intros L HL p input.
  destruct (visit_order_covers L HL p (length input)) as [Hlen Hin].
  eexists. split.
  - apply apply_pred_all_true.
    + intros i Hi. now apply Hin.
    + rewrite Hlen. lia.
  - apply selected_everything. intros i Hi.
    apply flag_of_all_true. now apply Hin.
Qed.

Lemma hpx_count_if_mask_of_ones :
  forall L cfg, LibraryContract L ->
    forall input,
      hpx_count_if L cfg input
        (MaskPredicate (repeat 1 (length input))) 0%nat
      = Ok (Z.of_nat (length input)).
Proof.
  intros L cfg HL input. unfold hpx_count_if.
  apply run_with_policy_const. intros p. unfold algo_count_if.
  destruct (apply_pred_mask_of_ones L HL p input) as (fs & -> & Hsel).
  simpl. now rewrite Hsel.
Qed.

Lemma hpx_copy_if_mask_of_ones :
  forall L cfg, LibraryContract L ->
    forall input,
      hpx_copy_if L cfg input
        (MaskPredicate (repeat 1 (length input))) 0%nat
      = Ok input.
Proof.
  intros L cfg HL input. unfold hpx_copy_if.
  apply run_with_policy_const. intros p. unfold algo_copy_if.
  destruct (apply_pred_mask_of_ones L HL p input) as (fs & -> & Hsel).
  simpl. rewrite Hsel, length_repeat_zero, Nat.leb_refl. simpl.
  rewrite skipn_all2 by (rewrite length_repeat_zero; lia).
  now rewrite app_nil_r, firstn_all.
Qed.

Lemma Copy_whole_input :
  forall cfg input, Copy cfg input = Resolved input.
Proof.
  intros cfg input. unfold Copy, hpx_copy.
  rewrite run_with_policy_const with (v := Ok input); [reflexivity|].
  intros _. unfold algo_copy.
  rewrite length_repeat_zero, Nat.leb_refl.
  rewrite skipn_all2 by (rewrite length_repeat_zero; lia).
  now rewrite app_nil_r.
Qed.

(** C6.  With any library meeting the contract, under any configuration
    and for every input: when the host predicate answers with a mask marking
    every element true, [CountIf] resolves with the length of the input and
    [CopyIf] resolves with the whole input, which is what [Copy] resolves
    with. *)
Theorem all_true_predicate_counts_and_copies_everything :
  forall (L : AlgorithmLibrary) (cfg : HPXUserConfig)
         (tsfn : ThreadSafeFunction) (inputArr : list Z),
    LibraryContract L ->
    NonBlockingCall_status tsfn = napi_ok ->
    jsFn tsfn inputArr
      = JsTypedArray napi_uint8_array (repeat 1 (length inputArr)) ->
    CountIf L cfg tsfn inputArr = Resolved (Z.of_nat (length inputArr))
    /\ CopyIf L cfg tsfn inputArr = Resolved inputArr
    /\ CopyIf L cfg tsfn inputArr = Copy cfg inputArr.
Proof.
  intros L cfg tsfn inputArr HL Hst Hresp.
  assert (Hmask : GetPredicateMaskBatchUsingTSFN tsfn inputArr
                  = Ok (repeat 1 (length inputArr))).
  { destruct (batch_call_well_shaped napi_uint8_array
                "Failed NonBlockingCall for predicate."
                "Predicate must return a typed array (Uint8Array)."
                "Predicate must return a Uint8Array of same length."
                tsfn inputArr Hst) as (els & Hr & _ & Hc).
    - rewrite Hresp. simpl. now rewrite repeat_length, Nat.eqb_refl.
    - rewrite Hresp in Hr. injection Hr as <-. exact Hc. }
  unfold CountIf, CopyIf. rewrite Hmask. simpl.
  rewrite hpx_count_if_mask_of_ones, hpx_copy_if_mask_of_ones by assumption.
  rewrite Copy_whole_input. simpl. auto.
Qed.

Lemma all_true_predicate_counts_and_copies_everything_witness :
  CountIf reference_library default_config accept_all [4; 8; 15]
  = Resolved 3
  /\ CopyIf reference_library default_config accept_all [4; 8; 15]
     = Resolved [4; 8; 15]
  /\ CopyIf reference_library default_config accept_all [4; 8; 15]
     = Copy default_config [4; 8; 15].
Proof.
  apply (all_true_predicate_counts_and_copies_everything
           reference_library default_config accept_all [4; 8; 15]).
  - exact reference_library_contract.
  - reflexivity.
  - reflexivity.
Defined.

(** ** partialSort and partialSortComp *)

Lemma run_with_policy_some :
  forall (R : Type) (cfg : HPXUserConfig) (f : policy -> R) (size : N),
    exists p, run_with_policy cfg f size = f p.
Proof.
  intros R cfg f size. unfold run_with_policy.
  destruct (negb _); [now exists seq_policy|].
  destruct (String.eqb _ "seq"); [now exists seq_policy|].
  destruct (String.eqb _ "par_unseq");
    [now exists par_unseq_policy|now exists par_policy].
Qed.

Lemma to_int32_small :
  forall z, 0 <= z < 2^31 -> to_int32 z = z.
Proof.
  intros z Hz. unfold to_int32.
  rewrite Z.mod_small by lia. lia.
Qed.

Lemma index_array_small :
  forall n, Z.of_nat n < 2^31 -> index_array n = map Z.of_nat (seq 0 n).
Proof.
  intros n Hn. unfold index_array.
  rewrite to_int32_small by lia.
  apply map_ext_in. intros i Hi. apply in_seq in Hi.
  destruct (Z.ltb_spec (Z.of_nat i) (Z.of_nat n)); [reflexivity|lia].
Qed.

Lemma length_index_array : forall n, length (index_array n) = n.
Proof. intros n. unfold index_array. now rewrite length_map, length_seq. Qed.

Lemma gather_in_range :
  forall (inputVec : list Z) (indices : list Z),
    Forall (fun j => 0 <= j < Z.of_nat (length inputVec)) indices ->
    gather inputVec indices
    = Ok (map (fun j => nth (Z.to_nat j) inputVec 0) indices).
Proof.
  intros inputVec indices Hall.
  induction Hall as [|j rest Hj _ IH]; simpl.
  - reflexivity.
  - destruct (Z.ltb_spec j 0); [lia|].
    destruct (nth_error inputVec (Z.to_nat j)) as [x|] eqn:Hx.
    + rewrite IH. simpl. f_equal. f_equal.
      symmetry. now apply nth_error_nth.
    + apply nth_error_None in Hx. lia.
Qed.

Lemma nth_of_each_position :
  forall (l : list Z), map (fun i => nth i l 0) (seq 0 (length l)) = l.
Proof.
  induction l as [|x rest IH]; simpl.
  - reflexivity.
  - f_equal. rewrite <- seq_shift, map_map. exact IH.
Qed.

Lemma nth_of_positions :
  forall (l : list Z),
    map (fun j => nth (Z.to_nat j) l 0) (map Z.of_nat (seq 0 (length l))) = l.
Proof.
  intros l. rewrite map_map.
  transitivity (map (fun i => nth i l 0) (seq 0 (length l))).
  - apply map_ext. intros i. now rewrite Nat2Z.id.
  - apply nth_of_each_position.
Qed.

Lemma gather_rearranged_positions :
  forall (inputVec : list Z) (indices : list Z),
    Permutation (map Z.of_nat (seq 0 (length inputVec))) indices ->
    exists out,
      gather inputVec indices = Ok out /\ Permutation inputVec out.
Proof.
  intros inputVec indices HP.
  eexists. split.
  - apply gather_in_range.
    apply Forall_forall. intros j Hj.
    apply (Permutation_in _ (Permutation_sym HP)) in Hj.
    apply in_map_iff in Hj as (i & <- & Hi).
    apply in_seq in Hi. lia.
  - rewrite <- (nth_of_positions inputVec) at 1.
    now apply Permutation_map.
Qed.

Lemma index_array_in_range :
  forall n, Forall (fun j => 0 <= j < Z.of_nat n) (index_array n).
Proof.
  intros n. unfold index_array. apply Forall_forall. intros j Hj.
  apply in_map_iff in Hj as (i & <- & Hi). apply in_seq in Hi.
  destruct (Z.of_nat i <? to_int32 (Z.of_nat n)); lia.
Qed.

Lemma PartialSortComp_clamps :
  forall L cfg tsfn inputArr number,
    (length inputArr < Uint32Value number)%nat ->
    PartialSortComp L cfg tsfn inputArr number
    = PartialSortComp L cfg tsfn inputArr (Z.of_nat (length inputArr)).
Proof.
  intros L cfg tsfn inputArr number Hlt. unfold PartialSortComp.
  pose proof (Uint32Value_bound number) as Hb.
  rewrite (Uint32Value_of_size (length inputArr)) by lia.
  rewrite Nat.ltb_irrefl.
  apply Nat.ltb_lt in Hlt. now rewrite Hlt.
Qed.

Lemma PartialSortComp_resolves :
  forall L cfg, LibraryContract L ->
    forall tsfn inputArr number,
      NonBlockingCall_status tsfn = napi_ok ->
      well_shaped napi_int32_array (length inputArr) (jsFn tsfn inputArr)
        = true ->
      exists out,
        PartialSortComp L cfg tsfn inputArr number = Resolved out
        /\ length out = length inputArr
        /\ (Z.of_nat (length inputArr) < 2^31 -> Permutation inputArr out).
Proof.
  intros L cfg HL tsfn inputArr number Hst Hshape.
  unfold PartialSortComp.
  generalize (if (length inputArr <? Uint32Value number)%nat
              then Uint32Value (Z.of_nat (length inputArr))
              else Uint32Value number).
  intros middle.
  destruct (batch_call_well_shaped napi_int32_array
              "Failed NonBlockingCall for key extraction."
              "Key extractor must return an Int32Array of same length as input."
              "Key extractor must return Int32Array of same length."
              tsfn inputArr Hst Hshape) as (keys & _ & _ & Hkeys).
  unfold GetKeyArrayBatchUsingTSFN. rewrite Hkeys. simpl.
  unfold hpx_partial_sort_comp.
  rewrite length_index_array.
  set (clamped := if (length inputArr <? middle)%nat
                  then length inputArr else middle).
  assert (Hc : (clamped <= length inputArr)%nat).
  { subst clamped.
    destruct (Nat.ltb_spec (length inputArr) middle); lia. }
  destruct (run_with_policy_some _ cfg
              (fun p => algo_partial_sort_comp L p (key_comp keys)
                          (index_array (length inputArr)) clamped)
              (N.of_nat (length inputArr))) as [p ->].
  unfold algo_partial_sort_comp.
  rewrite length_index_array.
  apply Nat.leb_le in Hc as Hcb. rewrite Hcb. simpl.
  assert (HP : Permutation (index_array (length inputArr))
                 (lib_partial_sort_comp L p (key_comp keys)
                    (index_array (length inputArr)) clamped)).
  { apply (partial_sort_comp_permutes L HL).
    now rewrite length_index_array. }
  rewrite gather_in_range.
  - eexists. split; [reflexivity|]. split.
    + rewrite length_map, <- (Permutation_length HP).
      apply length_index_array.
    + intros Hsmall.
      rewrite <- (nth_of_positions inputArr) at 1.
      rewrite <- index_array_small by assumption.
      now apply Permutation_map.
  - apply Forall_forall. intros j Hj.
    apply (Permutation_in _ (Permutation_sym HP)) in Hj.
    pose proof (index_array_in_range (length inputArr)) as Hall.
    rewrite Forall_forall in Hall. now apply Hall.
Qed.

(** A [middle] of 2^32 on an array of three elements is above the length,
    yet it is read as 0: [PartialSort] calls [hpx::partial_sort] with
    [middle = 0] and resolves. *)
Lemma PartialSort_middle_above_32_bits :
  Z.of_nat (length [3; 1; 2]) < 4294967296
  /\ PartialSort reference_library default_config [3; 1; 2] 4294967296
     = Resolved (lib_partial_sort reference_library seq_policy [3; 1; 2] 0)
  /\ PartialSort reference_library default_config [3; 1; 2] 4294967296
     <> Rejected "'middle' index out of bounds".
Proof.
  assert (H : PartialSort reference_library default_config [3; 1; 2]
                4294967296
              = Resolved
                  (lib_partial_sort reference_library seq_policy [3; 1; 2] 0))
    by reflexivity.
  split; [reflexivity|]. split; [exact H|]. rewrite H. discriminate.
Qed.

(** C9.  For every input of length [n] and every [middle] that, read as
    an unsigned 32-bit integer, exceeds [n] ([n < middle mod 2^32], which
    covers every [middle] with [n < middle < 2^32]): [PartialSort] rejects
    with "'middle' index out of bounds", whereas [PartialSortComp] clamps
    [middle] to [n]: it behaves as it does for [middle = n] and, the key
    extractor answering with one key per element, resolves with [n]
    elements, a rearrangement of the input when [n < 2^31]. *)
Theorem partial_sort_variants_on_large_middle :
  forall (L : AlgorithmLibrary) (cfg : HPXUserConfig)
         (tsfn : ThreadSafeFunction) (inputArr : list Z) (middle : Z),
    LibraryContract L ->
    Z.of_nat (length inputArr) < middle mod 2^32 ->
    PartialSort L cfg inputArr middle
      = Rejected "'middle' index out of bounds"
    /\ PartialSortComp L cfg tsfn inputArr middle
       = PartialSortComp L cfg tsfn inputArr (Z.of_nat (length inputArr))
    /\ (NonBlockingCall_status tsfn = napi_ok ->
        well_shaped napi_int32_array (length inputArr) (jsFn tsfn inputArr)
          = true ->
        exists out,
          PartialSortComp L cfg tsfn inputArr middle = Resolved out
          /\ length out = length inputArr
          /\ (Z.of_nat (length inputArr) < 2^31 ->
              Permutation inputArr out)).
Proof.
  intros L cfg tsfn inputArr middle HL Hgt.
  assert (Hlt : (length inputArr < Uint32Value middle)%nat)
    by (unfold Uint32Value; lia).
  split; [|split].
  - unfold PartialSort, hpx_partial_sort.
    apply Nat.ltb_lt in Hlt. now rewrite Hlt.
  - now apply PartialSortComp_clamps.
  - intros Hst Hshape.
    now apply PartialSortComp_resolves.
Qed.

Lemma partial_sort_variants_on_large_middle_witness :
  PartialSort reference_library default_config [5; 3; 1; 4; 2] 9
    = Rejected "'middle' index out of bounds"
  /\ exists out,
       PartialSortComp reference_library default_config identity_keys
         [5; 3; 1; 4; 2] 9 = Resolved out
       /\ length out = length [5; 3; 1; 4; 2]
       /\ (Z.of_nat (length [5; 3; 1; 4; 2]) < 2^31 ->
           Permutation [5; 3; 1; 4; 2] out).
Proof.
  destruct (partial_sort_variants_on_large_middle
              reference_library default_config identity_keys
              [5; 3; 1; 4; 2] 9 reference_library_contract)
    as (Hrej & _ & Hres).
  - reflexivity.
  - split; [exact Hrej|].
    apply Hres; reflexivity.
Defined.

(** ** The life cycle of the runtime *)

Lemma running_process_eq :
  running_process =
  Some {| futures := [Ready 0];
          manager := {| hpx_thread_ := true;
                        init_promise_ :=
                          Some {| state_of := 0; future_retrieved := true |};
                        finalize_promise_ := None;
                        running_ := true;
                        finalize_signal_promise_ := false |};
          engine := EngineParked;
          threads_spawned := 1;
          threads_joined := 0 |}.
Proof. reflexivity. Qed.

(** While the flag [running_] is set, [InitHPX] hands out a new future that
    is already ready with -1, starts no thread and leaves every existing
    shared state and the manager as they are. *)
Lemma InitHPX_while_running :
  forall p,
    running_ (manager p) = true ->
    InitHPX p =
    (Returned (FutureOf (length (futures p))),
     with_futures (futures p ++ [Ready (-1)]) p).
Proof.
  intros p Hrun. unfold InitHPX. now rewrite Hrun.
Qed.

(** While [running_] is not yet set and [hpx_thread_] is joinable, [InitHPX]
    starts one more thread and ends the process. *)
Lemma InitHPX_while_starting :
  forall p,
    running_ (manager p) = false ->
    hpx_thread_ (manager p) = true ->
    fst (InitHPX p) = Terminate
    /\ threads_spawned (snd (InitHPX p)) = S (threads_spawned p).
Proof.
  intros p Hrun Hthr. unfold InitHPX. rewrite Hrun, Hthr. simpl. auto.
Qed.

(** C3.  A second [InitHPX] issued while the first one is still starting
    (the thread exists, the engine has not yet set [running_]) is not
    refused: it replaces the init promise, which breaks the future of the
    first call, starts a second thread and ends the process in
    [std::terminate].  Once the engine has reported ready, the second call
    is refused with -1 and changes nothing else. *)
Theorem second_InitHPX_while_starting :
  let first := InitHPX boot in
  let second := InitHPX (snd first) in
  fst first = Returned (FutureOf 0)
  /\ engine (snd first) = EngineStarting
  /\ running_ (manager (snd first)) = false
  /\ future_get (futures (snd first)) (FutureOf 0) = Blocks
  /\ fst second = Terminate
  /\ threads_spawned (snd second) = 2%nat
  /\ future_get (futures (snd second)) (FutureOf 0) = Raised broken_promise.
Proof. repeat split. Qed.

Lemma second_InitHPX_while_running :
  exists p,
    running_process = Some p
    /\ fst (InitHPX p) = Returned (FutureOf 1)
    /\ future_get (futures (snd (InitHPX p))) (FutureOf 1) = Returned (-1)
    /\ future_get (futures (snd (InitHPX p))) (FutureOf 0) = Returned 0
    /\ threads_spawned (snd (InitHPX p)) = 1%nat
    /\ manager (snd (InitHPX p)) = manager p.
Proof. eexists. split; [apply running_process_eq|]. repeat split. Qed.

(** *** finalize *)

Lemma finalize_promise_taken_boot : finalize_promise_taken boot.
Proof. split; simpl; [discriminate|intros pr H; discriminate]. Qed.

Ltac keep_invariant :=
  split; simpl;
  first [ assumption
        | discriminate
        | let E := fresh in intros ? E; injection E as <-; reflexivity ].

Lemma FinalizeHPX_keeps_invariant :
  forall p r p',
    finalize_promise_taken p -> FinalizeHPX p = (r, p') ->
    finalize_promise_taken p'.
Proof.
  intros p r p' [Hsig Htaken] H. unfold FinalizeHPX in H.
  destruct (running_ (manager p)); simpl in H.
  2:{ injection H as _ <-. keep_invariant. }
  destruct (finalize_promise_ (manager p)) as [pr|] eqn:Hfp.
  - rewrite (Htaken pr eq_refl) in H. injection H as _ <-.
    split; rewrite Hfp; [discriminate|].
    intros pr' E. injection E as <-. now apply Htaken.
  - destruct (finalize_signal_promise_ (manager p)) eqn:Hs.
    + exfalso. now apply Hsig.
    + unfold WaitForFinalizeHPX in H. simpl in H.
      destruct (engine p); try (injection H as _ <-; keep_invariant).
      simpl in H.
      destruct (nth_error _ _) as [[]|]; simpl in H;
        try (injection H as _ <-; keep_invariant).
      destruct (hpx_thread_ (manager p)); injection H as _ <-;
        keep_invariant.
Qed.

Lemma reachable_finalize_promise_taken :
  forall p, reachable p -> finalize_promise_taken p.
Proof.
  intros p Hr. induction Hr as [|a p p' _ IH Hstep].
  - apply finalize_promise_taken_boot.
  - destruct a; simpl in Hstep.
    + unfold InitHPX in Hstep.
      destruct IH as [Hsig Htaken].
      destruct (running_ (manager p)); simpl in Hstep.
      * injection Hstep as <-. keep_invariant.
      * destruct (hpx_thread_ (manager p)); [discriminate|].
        injection Hstep as <-. keep_invariant.
    + destruct (FinalizeHPX p) as [r q] eqn:HF.
      pose proof (FinalizeHPX_keeps_invariant _ _ _ IH HF) as Hq.
      destruct r; congruence.
    + unfold engine_ready in Hstep.
      destruct (engine p); try discriminate.
      injection Hstep as <-. exact IH.
    + unfold engine_start_failed in Hstep.
      destruct (engine p); try discriminate.
      injection Hstep as <-. exact IH.
    + unfold engine_exit in Hstep.
      destruct (engine p); try discriminate.
      injection Hstep as <-. exact IH.
Qed.

(** The branch "finalization already in progress" never hands out the
    in-flight future: whenever it is taken, [get_future] throws. *)
Lemma FinalizeHPX_in_progress_branch_throws :
  forall p,
    reachable p ->
    running_ (manager p) = true ->
    finalize_promise_ (manager p) <> None ->
    FinalizeHPX p = (Raised future_already_retrieved, p).
Proof.
  intros p Hr Hrun Hfp.
  destruct (reachable_finalize_promise_taken p Hr) as [_ Htaken].
  unfold FinalizeHPX. rewrite Hrun. simpl.
  destruct (finalize_promise_ (manager p)) as [pr|]; [|contradiction].
  now rewrite (Htaken pr eq_refl).
Qed.

(** C1.  On a running runtime the first [FinalizeHPX] returns a future
    ready with 0 and joins the engine thread once.  A second call does not
    join again and starts no second pass, but it does not share the result
    of the first either: while the engine has not yet cleared [running_] it
    throws [future_already_retrieved], and after that it returns another
    future, ready with -1. *)
Theorem second_FinalizeHPX_does_not_share_the_future :
  exists p first p1,
    running_process = Some p
    /\ FinalizeHPX p = (Returned first, p1)
    /\ future_get (futures p1) first = Returned 0
    /\ threads_joined p1 = 1%nat
    /\ FinalizeHPX p1 = (Raised future_already_retrieved, p1)
    /\ exists p2 second p3,
         engine_exit p1 = Some p2
         /\ FinalizeHPX p2 = (Returned second, p3)
         /\ second <> first
         /\ future_get (futures p3) second = Returned (-1)
         /\ threads_joined p3 = 1%nat.
Proof.
  do 3 eexists. split; [apply running_process_eq|].
  split; [reflexivity|]. repeat split.
  do 3 eexists. split; [reflexivity|]. split; [reflexivity|].
  repeat split. discriminate.
Qed.

(** *** finalize and the callback registry *)

(** Left to itself, the release thread releases every non-null handle of
    its snapshot once, in order, and then reports completion. *)
Lemma release_thread_drains :
  forall tsfn_copy s,
    release_thread s = Releasing tsfn_copy ->
    exists s',
      run (repeat ReleaseThread (S (length tsfn_copy))) s = Some s'
      /\ released s' = released s ++ non_null tsfn_copy
      /\ release_completed_ (registry s') = true
      /\ release_thread s' = ReleaseDone
      /\ deferred s' = deferred s.
Proof.
  induction tsfn_copy as [|h rest IH]; intros s Hs.
  - simpl. unfold release_step. rewrite Hs.
    eexists. split; [reflexivity|]. simpl.
    now rewrite app_nil_r.
  - change (repeat ReleaseThread (S (length (h :: rest))))
      with (ReleaseThread :: repeat ReleaseThread (S (length rest))).
    cbn [run thread_step]. unfold release_step at 1.
    rewrite Hs. cbn beta iota.
    match goal with
    | |- exists s', run _ ?s1 = _ /\ _ =>
        destruct (IH s1 eq_refl) as (s' & Hrun & Hrel & Hdone & Hph & Hdef)
    end.
    exists s'. split; [exact Hrun|].
    split; [|now repeat split].
    rewrite Hrel. simpl. destruct h; simpl; [|reflexivity].
    now rewrite <- app_assoc.
Qed.

(** C2.  With one handle registered on a running runtime, the finalize job
    joins the engine thread, resets the manager and calls
    [ReleaseAllTSFNs]; when the job thread then finishes before the release
    thread is scheduled, the promise of finalize is already resolved while
    the handle is still registered and not released, and the completion flag
    that [WaitForReleaseCompletion] waits for is not set.  The handle is
    released only by the later steps of the release thread. *)
Theorem finalize_resolves_before_release_completes :
  exists p s s',
    running_process = Some p
    /\ run [JobThread; JobThread; JobThread; JobThread]
         (finalize_queued p [Some 7%nat]) = Some s
    /\ threads_joined (proc s) = 1%nat
    /\ releasing_ (registry s) = true
    /\ deferred s = Some (Resolved true)
    /\ released s = []
    /\ tsfn_list_ (registry s) = [Some 7%nat]
    /\ WaitForReleaseCompletion (registry s) = Blocks
    /\ run [ReleaseThread; ReleaseThread; ReleaseThread] s = Some s'
    /\ released s' = [7%nat]
    /\ WaitForReleaseCompletion (registry s') = Returned tt.
Proof.
  do 3 eexists.
  split; [reflexivity|].
  split; [vm_compute; reflexivity|].
  do 6 (split; [reflexivity|]).
  split; [vm_compute; reflexivity|].
  split; reflexivity.
Qed.

Lemma register_all :
  forall handles r,
    releasing_ r = false ->
    tsfn_list_ (fold_left (fun r h => RegisterTSFN h r) handles r)
      = tsfn_list_ r ++ handles
    /\ releasing_ (fold_left (fun r h => RegisterTSFN h r) handles r) = false
    /\ release_completed_ (fold_left (fun r h => RegisterTSFN h r) handles r)
       = release_completed_ r.
Proof.
  induction handles as [|h rest IH]; intros r Hr; simpl.
  - now rewrite app_nil_r.
  - assert (Hreg : RegisterTSFN h r =
                   {| tsfn_list_ := tsfn_list_ r ++ [h];
                      releasing_ := releasing_ r;
                      release_thread_ := release_thread_ r;
                      release_completed_ := release_completed_ r |})
      by (unfold RegisterTSFN; now rewrite Hr).
    rewrite Hreg.
    match goal with
    | |- context [fold_left _ rest ?r1] =>
        destruct (IH r1 Hr) as (Hl & Hrel & Hc)
    end.
    rewrite Hl, Hrel, Hc. simpl. now rewrite <- app_assoc.
Qed.

(** Whatever handles are registered, the job thread alone takes the promise
    of finalize to "resolved" without a single handle released and without
    the completion flag set: nothing in the job waits for the release. *)
Lemma finalize_job_never_waits_for_release :
  forall handles,
    exists p s,
      running_process = Some p
      /\ run [JobThread; JobThread; JobThread; JobThread]
           (finalize_queued p handles) = Some s
      /\ deferred s = Some (Resolved true)
      /\ released s = []
      /\ tsfn_list_ (registry s) = handles
      /\ release_completed_ (registry s) = false.
Proof.
  intros handles.
  destruct (register_all handles TSFNManager_new eq_refl)
    as (Hl & Hrel & Hc).
  simpl in Hl, Hc.
  eexists. eexists. split; [reflexivity|].
  unfold finalize_queued.
  cbn [run thread_step]. unfold job_step at 1. cbn.
  unfold ReleaseAllTSFNs. rewrite Hrel. cbn.
  rewrite Hl, Hc. repeat split.
Qed.

(* ================================================================= *)
(** * Further properties of the code *)

(** ** countIf and copyIf under an arbitrary mask *)

Lemma skipn_at :
  forall (A : Type) (l : list A) (c : nat) (m : A),
    nth_error l c = Some m -> skipn c l = m :: skipn (S c) l.
Proof.
  intros A l. induction l as [|x rest IH]; intros [|c] m H; simpl in *;
    try discriminate.
  - now injection H as ->.
  - now apply IH.
Qed.

(** The answers recorded by the cursor predicate: the position visited
    [k]-th gets the [k]-th flag of the mask. *)
Lemma apply_pred_mask :
  forall (input mask : list Z) (visit : list nat) (cursor : nat),
    (forall i, In i visit -> (i < length input)%nat) ->
    (cursor + length visit <= length mask)%nat ->
    apply_pred (MaskPredicate mask) input visit cursor
    = Ok (combine visit
            (map (fun m => m =? 1)
               (firstn (length visit) (skipn cursor mask)))).
Proof.
  intros input mask visit.
  induction visit as [|i rest IH]; intros cursor Hin Hlen; simpl.
  - reflexivity.
  - destruct (nth_error input i) as [x|] eqn:Hx.
    2:{ apply nth_error_None in Hx.
        specialize (Hin i (or_introl eq_refl)). lia. }
    unfold MaskPredicate at 1.
    destruct (nth_error mask cursor) as [m|] eqn:Hm.
    2:{ apply nth_error_None in Hm. simpl in Hlen. lia. }
    simpl. rewrite IH.
    + simpl. rewrite (skipn_at _ _ _ _ Hm). reflexivity.
    + intros j Hj. apply Hin. now right.
    + simpl in Hlen. lia.
Qed.

Lemma length_filter_on_fst :
  forall (f : nat -> bool) (l : list (nat * Z)),
    length (filter (fun ix => f (fst ix)) l)
    = length (filter f (map fst l)).
Proof.
  intros f l. induction l as [|[i x] rest IH]; simpl.
  - reflexivity.
  - destruct (f i); simpl; now rewrite IH.
Qed.

Lemma map_fst_combine_seq :
  forall (input : list Z) (start : nat),
    map fst (combine (seq start (length input)) input)
    = seq start (length input).
Proof.
  induction input as [|x rest IH]; intros start; simpl.
  - reflexivity.
  - now rewrite IH.
Qed.

Lemma length_filter_permutation :
  forall (f : nat -> bool) (l l' : list nat),
    Permutation l l' -> length (filter f l) = length (filter f l').
Proof.
  intros f l l' HP. induction HP; simpl.
  - reflexivity.
  - destruct (f x); simpl; now rewrite IHHP.
  - destruct (f x), (f y); reflexivity.
  - congruence.
Qed.

Lemma flag_of_fresh :
  forall (fs : list (nat * bool)) (i j : nat) (b : bool),
    j <> i -> flag_of ((i, b) :: fs) j = flag_of fs j.
Proof.
  intros fs i j b Hne. simpl.
  destruct (Nat.eqb_spec j i); [contradiction|reflexivity].
Qed.

Lemma length_filter_flags :
  forall (visit : list nat) (flags : list bool),
    NoDup visit -> length flags = length visit ->
    length (filter (flag_of (combine visit flags)) visit)
    = length (filter (fun b => b) flags).
Proof.
  induction visit as [|i rest IH]; intros [|b flags] Hnd Hlen;
    simpl in Hlen; try discriminate.
  - reflexivity.
  - inversion Hnd as [|? ? Hnotin Hnd']; subst.
    assert (Hi : flag_of ((i, b) :: combine rest flags) i = b)
      by (simpl; now rewrite Nat.eqb_refl).
    assert (Hrest : filter (flag_of ((i, b) :: combine rest flags)) rest
                    = filter (flag_of (combine rest flags)) rest).
    { apply filter_ext_in. intros j Hj. apply flag_of_fresh.
      intros ->. contradiction. }
    cbn [combine filter]. rewrite Hi, Hrest.
    destruct b; cbn [length]; rewrite IH by (auto; lia); reflexivity.
Qed.

Lemma filter_flags_of_mask :
  forall (mask : list Z),
    length (filter (fun b : bool => b) (map (fun m => m =? 1) mask))
    = ones mask.
Proof.
  intros mask. unfold ones. induction mask as [|m rest IH]; simpl.
  - reflexivity.
  - destruct (m =? 1); simpl; now rewrite IH.
Qed.

(** Whatever the order of the visits, as many positions are selected as
    the mask has ones. *)
Lemma selected_as_many_as_ones :
  forall L, LibraryContract L ->
    forall p (input mask : list Z),
      length mask = length input ->
      exists fs,
        apply_pred (MaskPredicate mask) input
          (lib_visit_order L p (length input)) 0%nat = Ok fs
        /\ length (selected fs input) = ones mask.
Proof.
  intros L HL p input mask Hlen.
  pose proof (visit_each_once L HL p (length input)) as HP.
  assert (Hvl : length (lib_visit_order L p (length input)) = length input)
    by (rewrite (Permutation_length HP); apply length_seq).
  eexists. split.
  - apply apply_pred_mask.
    + intros i Hi. apply (Permutation_in _ HP) in Hi.
      apply in_seq in Hi. lia.
    + lia.
  - rewrite Hvl. simpl skipn. rewrite <- Hlen, firstn_all.
    unfold selected. rewrite length_map, length_filter_on_fst.
    rewrite map_fst_combine_seq.
    rewrite (length_filter_permutation _ _ _ (Permutation_sym HP)).
    rewrite Hlen.
    rewrite length_filter_flags.
    + apply filter_flags_of_mask.
    + apply (Permutation_NoDup (Permutation_sym HP)), seq_NoDup.
    + now rewrite length_map, Hvl.
Qed.

Lemma mask_returned :
  forall tsfn input mask,
    NonBlockingCall_status tsfn = napi_ok ->
    jsFn tsfn input = JsTypedArray napi_uint8_array mask ->
    length mask = length input ->
    GetPredicateMaskBatchUsingTSFN tsfn input = Ok mask.
Proof.
  intros tsfn input mask Hst Hresp Hlen.
  destruct (batch_call_well_shaped napi_uint8_array
              "Failed NonBlockingCall for predicate."
              "Predicate must return a typed array (Uint8Array)."
              "Predicate must return a Uint8Array of same length."
              tsfn input Hst) as (els & Hr & _ & Hc).
  - rewrite Hresp. simpl. now rewrite Hlen, Nat.eqb_refl.
  - rewrite Hresp in Hr. injection Hr as <-. exact Hc.
Qed.

(** X1.  Whatever the configured policy and the order in which it visits
    the elements, [CountIf] resolves with the number of ones in the mask the
    host predicate returned. *)
Theorem CountIf_counts_the_ones_of_the_mask :
  forall (L : AlgorithmLibrary) (cfg : HPXUserConfig)
         (tsfn : ThreadSafeFunction) (inputArr mask : list Z),
    LibraryContract L ->
    NonBlockingCall_status tsfn = napi_ok ->
    jsFn tsfn inputArr = JsTypedArray napi_uint8_array mask ->
    length mask = length inputArr ->
    CountIf L cfg tsfn inputArr = Resolved (Z.of_nat (ones mask)).
Proof.
  intros L cfg tsfn inputArr mask HL Hst Hresp Hlen.
  unfold CountIf. rewrite (mask_returned _ _ _ Hst Hresp Hlen). simpl.
  unfold hpx_count_if.
  rewrite run_with_policy_const
    with (v := Ok (Z.of_nat (ones mask))); [reflexivity|].
  intros p. unfold algo_count_if.
  destruct (selected_as_many_as_ones L HL p inputArr mask Hlen)
    as (fs & -> & Hsel).
  simpl. now rewrite Hsel.
Qed.

Lemma CountIf_counts_the_ones_of_the_mask_witness :
  CountIf reference_library default_config three_flags [4; 8; 15]
  = Resolved 2.
Proof.
  apply (CountIf_counts_the_ones_of_the_mask
           reference_library default_config three_flags [4; 8; 15] [1; 0; 1]).
  - exact reference_library_contract.
  - reflexivity.
  - reflexivity.
  - reflexivity.
Defined.

(** X2.  Whatever the policy, [CopyIf] resolves with as many elements as
    the mask has ones. *)
Theorem CopyIf_keeps_as_many_as_ones :
  forall (L : AlgorithmLibrary) (cfg : HPXUserConfig)
         (tsfn : ThreadSafeFunction) (inputArr mask : list Z),
    LibraryContract L ->
    NonBlockingCall_status tsfn = napi_ok ->
    jsFn tsfn inputArr = JsTypedArray napi_uint8_array mask ->
    length mask = length inputArr ->
    exists out,
      CopyIf L cfg tsfn inputArr = Resolved out
      /\ length out = ones mask.
Proof.
  intros L cfg tsfn inputArr mask HL Hst Hresp Hlen.
  unfold CopyIf. rewrite (mask_returned _ _ _ Hst Hresp Hlen). simpl.
  unfold hpx_copy_if.
  destruct (run_with_policy_some _ cfg
              (fun p =>
                 r <- algo_copy_if (MaskPredicate mask) L p inputArr
                        (repeat 0 (length inputArr)) 0%nat ;;
                 Ok (firstn (snd r) (fst r)))
              (size_of inputArr)) as [p ->].
  unfold algo_copy_if.
  destruct (selected_as_many_as_ones L HL p inputArr mask Hlen)
    as (fs & -> & Hsel).
  simpl.
  assert (Hle : (length (selected fs inputArr) <= length inputArr)%nat).
  { unfold selected. rewrite length_map.
    eapply Nat.le_trans; [apply filter_length_le|].
    rewrite length_combine, length_seq. lia. }
  rewrite length_repeat_zero.
  apply Nat.leb_le in Hle as Hb. rewrite Hb. simpl.
  eexists. split; [reflexivity|].
  rewrite firstn_app, Nat.sub_diag, firstn_all. simpl.
  now rewrite app_nil_r.
Qed.

Lemma CopyIf_keeps_as_many_as_ones_witness :
  exists out,
    CopyIf reference_library default_config three_flags [4; 8; 15]
    = Resolved out
    /\ length out = 2%nat.
Proof.
  apply (CopyIf_keeps_as_many_as_ones
           reference_library default_config three_flags [4; 8; 15] [1; 0; 1]).
  - exact reference_library_contract.
  - reflexivity.
  - reflexivity.
  - reflexivity.
Defined.

Lemma run_with_policy_sequential :
  forall (R : Type) (cfg : HPXUserConfig) (f : policy -> R) (size : N),
    (size < threshold cfg)%N \/ executionPolicy cfg = "seq" ->
    run_with_policy cfg f size = f seq_policy.
Proof.
  intros R cfg f size H. unfold run_with_policy.
  destruct (N.leb_spec (threshold cfg) size) as [Hle|Hlt]; simpl;
    [|reflexivity].
  destruct H as [H|H]; [lia|].
  now rewrite H.
Qed.

Lemma selected_in_order :
  forall (input mask : list Z) (start : nat),
    length mask = length input ->
    map snd
      (filter
         (fun ix =>
            flag_of (combine (seq start (length input))
                       (map (fun m => m =? 1) mask)) (fst ix))
         (combine (seq start (length input)) input))
    = kept_by mask input.
Proof.
  unfold kept_by.
  induction input as [|x rest IH]; intros [|m mask] start Hlen;
    simpl in Hlen; try discriminate.
  - reflexivity.
  - injection Hlen as Hlen.
    cbn [length seq map combine filter fst].
    assert (Hhead : flag_of ((start, m =? 1)
                               :: combine (seq (S start) (length rest))
                                    (map (fun m => m =? 1) mask)) start
                    = (m =? 1))
      by (simpl; now rewrite Nat.eqb_refl).
    rewrite Hhead.
    rewrite filter_ext_in
      with (g := fun ix : nat * Z =>
                   flag_of (combine (seq (S start) (length rest))
                              (map (fun m => m =? 1) mask)) (fst ix)).
    + destruct (m =? 1); cbn [map snd]; now rewrite IH.
    + intros [i y] Hiy. apply in_combine_l in Hiy.
      apply in_seq in Hiy. cbn [fst].
      apply flag_of_fresh. lia.
Qed.

(** X3.  When the operation runs under the sequential policy (the input
    is shorter than the threshold, or the configuration names "seq"),
    [CopyIf] resolves with exactly the elements whose flag in the mask is 1,
    in their order. *)
Theorem CopyIf_sequential_keeps_the_flagged_elements :
  forall (L : AlgorithmLibrary) (cfg : HPXUserConfig)
         (tsfn : ThreadSafeFunction) (inputArr mask : list Z),
    LibraryContract L ->
    (size_of inputArr < threshold cfg)%N \/ executionPolicy cfg = "seq" ->
    NonBlockingCall_status tsfn = napi_ok ->
    jsFn tsfn inputArr = JsTypedArray napi_uint8_array mask ->
    length mask = length inputArr ->
    CopyIf L cfg tsfn inputArr = Resolved (kept_by mask inputArr).
Proof.
  intros L cfg tsfn inputArr mask HL Hseq Hst Hresp Hlen.
  unfold CopyIf. rewrite (mask_returned _ _ _ Hst Hresp Hlen). simpl.
  unfold hpx_copy_if. rewrite run_with_policy_sequential by assumption.
  unfold algo_copy_if.
  rewrite (seq_visits_in_order L HL).
  rewrite apply_pred_mask.
  - rewrite length_seq. simpl skipn.
    replace (firstn (length inputArr) mask) with mask
      by (rewrite <- Hlen; symmetry; apply firstn_all).
    simpl bind. unfold selected.
    rewrite selected_in_order by assumption.
    assert (Hle : (length (kept_by mask inputArr) <= length inputArr)%nat).
    { unfold kept_by. rewrite length_map.
      eapply Nat.le_trans; [apply filter_length_le|].
      rewrite length_combine. lia. }
    rewrite length_repeat_zero.
    apply Nat.leb_le in Hle as Hb. rewrite Hb. simpl.
    rewrite firstn_app, Nat.sub_diag, firstn_all. simpl.
    now rewrite app_nil_r.
  - intros i Hi. apply in_seq in Hi. lia.
  - rewrite length_seq. lia.
Qed.

Lemma CopyIf_sequential_keeps_the_flagged_elements_witness :
  CopyIf reference_library default_config three_flags [4; 8; 15]
  = Resolved [4; 15].
Proof.
  apply (CopyIf_sequential_keeps_the_flagged_elements
           reference_library default_config three_flags [4; 8; 15] [1; 0; 1]).
  - exact reference_library_contract.
  - left. reflexivity.
  - reflexivity.
  - reflexivity.
  - reflexivity.
Defined.

(** ** Failures of the batch callback reach the promise *)

Lemma QueueAsyncWork_throw :
  forall (T : Type) (untouched : settled T) (what : string),
    what <> "" ->
    QueueAsyncWork untouched (Throw what) = Rejected what.
Proof.
  intros T untouched what Hne. simpl.
  destruct (String.eqb_spec what ""); [contradiction|reflexivity].
Qed.

Lemma mask_ill_shaped :
  forall tsfn input,
    NonBlockingCall_status tsfn = napi_ok ->
    well_shaped napi_uint8_array (length input) (jsFn tsfn input) = false ->
    exists what,
      GetPredicateMaskBatchUsingTSFN tsfn input = Throw what
      /\ ShapeMismatch what /\ what <> "".
Proof.
  intros tsfn input Hst Hs.
  destruct (batch_call_ill_shaped napi_uint8_array
              "Failed NonBlockingCall for predicate."
              "Predicate must return a typed array (Uint8Array)."
              "Predicate must return a Uint8Array of same length."
              ltac:(discriminate) ltac:(discriminate) tsfn input Hst Hs)
    as [Hc|Hc]; eexists; (split; [exact Hc|]);
    (split; [unfold ShapeMismatch; auto|discriminate]).
Qed.

Lemma keys_ill_shaped :
  forall tsfn input,
    NonBlockingCall_status tsfn = napi_ok ->
    well_shaped napi_int32_array (length input) (jsFn tsfn input) = false ->
    exists what,
      GetKeyArrayBatchUsingTSFN tsfn input = Throw what
      /\ ShapeMismatch what /\ what <> "".
Proof.
  intros tsfn input Hst Hs.
  destruct (batch_call_ill_shaped napi_int32_array
              "Failed NonBlockingCall for key extraction."
              "Key extractor must return an Int32Array of same length as input."
              "Key extractor must return Int32Array of same length."
              ltac:(discriminate) ltac:(discriminate) tsfn input Hst Hs)
    as [Hc|Hc]; eexists; (split; [exact Hc|]);
    (split; [unfold ShapeMismatch; auto|discriminate]).
Qed.

(** X4.  When the host predicate answers with anything but a Uint8Array
    of the length of the input, [CountIf] and [CopyIf] reject with one and
    the same shape error, whatever the library and the configuration: no
    element is counted or copied. *)
Theorem predicate_shape_error_rejects :
  forall (L : AlgorithmLibrary) (cfg : HPXUserConfig)
         (tsfn : ThreadSafeFunction) (inputArr : list Z),
    NonBlockingCall_status tsfn = napi_ok ->
    well_shaped napi_uint8_array (length inputArr) (jsFn tsfn inputArr)
      = false ->
    exists what,
      ShapeMismatch what
      /\ CountIf L cfg tsfn inputArr = Rejected what
      /\ CopyIf L cfg tsfn inputArr = Rejected what.
Proof.
  intros L cfg tsfn inputArr Hst Hs.
  destruct (mask_ill_shaped tsfn inputArr Hst Hs) as (what & Hc & Hm & Hne).
  exists what. split; [exact Hm|].
  unfold CountIf, CopyIf. rewrite Hc. simpl bind.
  split; now apply QueueAsyncWork_throw.
Qed.

Lemma predicate_shape_error_rejects_witness :
  exists what,
    ShapeMismatch what
    /\ CountIf reference_library default_config three_flags [10; 20]
       = Rejected what
    /\ CopyIf reference_library default_config three_flags [10; 20]
       = Rejected what.
Proof.
  apply (predicate_shape_error_rejects
           reference_library default_config three_flags [10; 20]);
    reflexivity.
Defined.

(** X5.  When the handle no longer accepts calls ([NonBlockingCall] does
    not return [napi_ok]), the host function is not consulted and the four
    operations taking a host function reject with the error of the failed
    call. *)
Theorem failed_call_rejects :
  forall (L : AlgorithmLibrary)
         (sort_comp : policy -> (Z -> Z -> bool) -> list Z -> list Z)
         (cfg : HPXUserConfig) (tsfn : ThreadSafeFunction)
         (inputArr : list Z) (middle : Z),
    NonBlockingCall_status tsfn <> napi_ok ->
    CountIf L cfg tsfn inputArr
      = Rejected "Failed NonBlockingCall for predicate."
    /\ CopyIf L cfg tsfn inputArr
       = Rejected "Failed NonBlockingCall for predicate."
    /\ SortComp sort_comp cfg tsfn inputArr
       = Rejected "Failed NonBlockingCall for key extraction."
    /\ PartialSortComp L cfg tsfn inputArr middle
       = Rejected "Failed NonBlockingCall for key extraction.".
Proof.
  intros L sort_comp cfg tsfn inputArr middle Hst.
  unfold CountIf, CopyIf, SortComp, PartialSortComp,
    GetPredicateMaskBatchUsingTSFN, GetKeyArrayBatchUsingTSFN, batch_call.
  destruct (NonBlockingCall_status tsfn); [contradiction| |];
    repeat split.
Qed.

Lemma failed_call_rejects_witness :
  CountIf reference_library default_config aborted_handle [1; 2]
    = Rejected "Failed NonBlockingCall for predicate."
  /\ CopyIf reference_library default_config aborted_handle [1; 2]
     = Rejected "Failed NonBlockingCall for predicate."
  /\ SortComp reference_sort_comp default_config aborted_handle [1; 2]
     = Rejected "Failed NonBlockingCall for key extraction."
  /\ PartialSortComp reference_library default_config aborted_handle
       [1; 2] 1
     = Rejected "Failed NonBlockingCall for key extraction.".
Proof.
  apply (failed_call_rejects reference_library reference_sort_comp
           default_config aborted_handle [1; 2] 1).
  discriminate.
Defined.

(** X6.  Under the same condition on the answer of a key extractor, the
    two operations taking one reject with one and the same shape error,
    before anything is sorted. *)
Theorem key_shape_error_rejects :
  forall (L : AlgorithmLibrary)
         (sort_comp : policy -> (Z -> Z -> bool) -> list Z -> list Z)
         (cfg : HPXUserConfig) (tsfn : ThreadSafeFunction)
         (inputArr : list Z) (middle : Z),
    NonBlockingCall_status tsfn = napi_ok ->
    well_shaped napi_int32_array (length inputArr) (jsFn tsfn inputArr)
      = false ->
    exists what,
      ShapeMismatch what
      /\ SortComp sort_comp cfg tsfn inputArr = Rejected what
      /\ PartialSortComp L cfg tsfn inputArr middle = Rejected what.
Proof.
  intros L sort_comp cfg tsfn inputArr middle Hst Hs.
  destruct (keys_ill_shaped tsfn inputArr Hst Hs) as (what & Hc & Hm & Hne).
  exists what. split; [exact Hm|].
  unfold SortComp, PartialSortComp. rewrite Hc. simpl bind.
  split; now apply QueueAsyncWork_throw.
Qed.

Lemma key_shape_error_rejects_witness :
  exists what,
    ShapeMismatch what
    /\ SortComp reference_sort_comp default_config three_flags [10; 20]
       = Rejected what
    /\ PartialSortComp reference_library default_config three_flags
         [10; 20] 1 = Rejected what.
Proof.
  apply (key_shape_error_rejects reference_library reference_sort_comp
           default_config three_flags [10; 20] 1); reflexivity.
Defined.

(** ** count and find *)

Lemma algo_find_bound :
  forall input value, (algo_find input value <= length input)%nat.
Proof.
  induction input as [|x rest IH]; intros value; simpl.
  - lia.
  - destruct (x =? value); [lia|]. specialize (IH value). lia.
Qed.

Lemma algo_find_found :
  forall input value,
    (algo_find input value < length input)%nat ->
    nth (algo_find input value) input 0 = value
    /\ forall j, (j < algo_find input value)%nat -> nth j input 0 <> value.
Proof.
  induction input as [|x rest IH]; intros value Hlt; simpl in *.
  - lia.
  - destruct (Z.eqb_spec x value) as [Heq|Hne].
    + split; [exact Heq|]. intros j Hj. lia.
    + destruct (IH value ltac:(lia)) as [Hnth Hbefore].
      split; [exact Hnth|].
      intros [|j] Hj; [exact Hne|]. apply Hbefore. lia.
Qed.

Lemma algo_find_absent :
  forall input value,
    algo_find input value = length input <-> ~ In value input.
Proof.
  induction input as [|x rest IH]; intros value; simpl.
  - tauto.
  - destruct (Z.eqb_spec x value) as [Heq|Hne].
    + split; [discriminate|]. intros H. exfalso. apply H. now left.
    + specialize (IH value). split.
      * intros H [Hx|Hin]; [contradiction|].
        apply IH; [lia|assumption].
      * intros H. f_equal. apply IH. intros Hin. apply H. now right.
Qed.

Lemma algo_count_zero :
  forall input value, algo_count input value = 0 <-> ~ In value input.
Proof.
  intros input value. unfold algo_count.
  induction input as [|x rest IH]; simpl.
  - tauto.
  - destruct (Z.eqb_spec x value) as [Heq|Hne]; simpl.
    + split; [lia|]. intros H. exfalso. apply H. now left.
    + rewrite IH. split.
      * intros H [Hx|Hin]; [contradiction|now apply H].
      * intros H Hin. apply H. now right.
Qed.

Lemma hpx_find_value :
  forall cfg arr value,
    hpx_find cfg arr value
    = Ok (if (algo_find arr value =? length arr)%nat then -1
          else Z.of_nat (algo_find arr value)).
Proof.
  intros cfg arr value. unfold hpx_find.
  apply run_with_policy_const. intros _.
  now destruct (algo_find arr value =? length arr)%nat.
Qed.

Lemma Int32Value_in_range :
  forall number, - 2^31 <= number < 2^31 -> Int32Value number = number.
Proof.
  intros number H. unfold Int32Value, to_int32.
  rewrite Z.mod_small by lia. lia.
Qed.

Lemma Int32Value_bounds :
  forall number, - 2^31 <= Int32Value number < 2^31.
Proof.
  intros number. unfold Int32Value, to_int32.
  pose proof (Z.mod_pos_bound (number + 2^31) (2^32) ltac:(lia)). lia.
Qed.

(** X7.  [Find] reads the value it is given as a signed 32-bit integer
    and always resolves: with -1 exactly when the value read does not occur
    in the array, and otherwise with the position of its first occurrence.
    A value between -2^31 and 2^31 - 1 is read as it is. *)
Theorem Find_first_occurrence :
  forall (cfg : HPXUserConfig) (arr : list Z) (number : Z),
    exists r,
      Find cfg arr number = Resolved r
      /\ (r = -1 <-> ~ In (Int32Value number) arr)
      /\ (r <> -1 ->
          0 <= r < Z.of_nat (length arr)
          /\ nth (Z.to_nat r) arr 0 = Int32Value number
          /\ forall j, (j < Z.to_nat r)%nat ->
                       nth j arr 0 <> Int32Value number)
      /\ (- 2^31 <= number < 2^31 -> Int32Value number = number).
Proof.
  intros cfg arr number. unfold Find. rewrite hpx_find_value.
  generalize (Int32Value_in_range number).
  generalize (Int32Value number). intros value Hrange.
  pose proof (algo_find_bound arr value) as Hb.
  destruct (Nat.eqb_spec (algo_find arr value) (length arr)) as [He|Hne].
  - exists (-1). split; [reflexivity|]. split; [|split].
    + split; [intros _; now apply algo_find_absent|reflexivity].
    + intros H. contradiction.
    + exact Hrange.
  - exists (Z.of_nat (algo_find arr value)). split; [reflexivity|].
    split; [|split].
    + split; [lia|]. intros H. apply algo_find_absent in H. contradiction.
    + intros _. rewrite Nat2Z.id.
      destruct (algo_find_found arr value ltac:(lia)) as [Hnth Hbefore].
      repeat split; [lia|lia|exact Hnth|exact Hbefore].
    + exact Hrange.
Qed.

(** X8.  [Count] and [Find] agree on absence: [Count] resolves with 0
    exactly when [Find] resolves with -1, and [Count] never exceeds the
    length of the array. *)
Theorem Count_zero_iff_Find_fails :
  forall (cfg : HPXUserConfig) (arr : list Z) (value : Z),
    exists n,
      Count cfg arr value = Resolved n
      /\ 0 <= n <= Z.of_nat (length arr)
      /\ (n = 0 <-> Find cfg arr value = Resolved (-1)).
Proof.
  intros cfg arr number. unfold Count, Find.
  generalize (Int32Value number). intros value.
  exists (algo_count arr value). split.
  - unfold hpx_count.
    now rewrite run_with_policy_const with (v := Ok (algo_count arr value)).
  - split.
    + unfold algo_count. pose proof (filter_length_le (fun x => x =? value) arr).
      lia.
    + rewrite algo_count_zero, <- algo_find_absent.
      rewrite hpx_find_value.
      pose proof (algo_find_bound arr value) as Hb.
      destruct (Nat.eqb_spec (algo_find arr value) (length arr)) as [He|Hne];
        simpl.
      * tauto.
      * split; [contradiction|]. intros H. injection H as H. lia.
Qed.

(** ** endsWith *)

(** X9.  [EndsWith] always resolves, and with [true] exactly when the
    first array is some prefix followed by the second array; in particular
    a suffix longer than the array gives [false]. *)
Theorem EndsWith_iff_suffix :
  forall (cfg : HPXUserConfig) (mainArr suffixArr : list Z),
    exists r,
      EndsWith cfg mainArr suffixArr = Resolved r
      /\ (r = true <-> exists prefix, mainArr = prefix ++ suffixArr).
Proof.
  intros cfg mainArr suffixArr.
  exists (algo_ends_with mainArr suffixArr). split.
  - unfold EndsWith, hpx_ends_with.
    now rewrite run_with_policy_const
      with (v := Ok (algo_ends_with mainArr suffixArr)).
  - unfold algo_ends_with.
    destruct (Nat.ltb_spec (length mainArr) (length suffixArr)) as [Hlt|Hge].
    + split; [discriminate|].
      intros [prefix ->]. rewrite length_app in Hlt. lia.
    + rewrite algo_equal_iff. split.
      * intros H.
        exists (firstn (length mainArr - length suffixArr) mainArr).
        pose proof (firstn_skipn (length mainArr - length suffixArr) mainArr)
          as E.
        rewrite H in E. now symmetry.
      * intros [prefix ->]. rewrite length_app.
        replace (length prefix + length suffixArr - length suffixArr)%nat
          with (length prefix) by lia.
        rewrite skipn_app, Nat.sub_diag, skipn_all. reflexivity.
Qed.

(** ** fill *)

(** X10.  [Fill] reads the value it is given as a signed 32-bit integer
    and resolves with an array of the length of its argument holding the
    value read everywhere; [Count], reading the value the same way, counts
    it in the result as many times as that length.  A value between -2^31
    and 2^31 - 1 is read as it is, and 2^31 as -2^31. *)
Theorem Fill_then_Count :
  forall (cfg : HPXUserConfig) (inputArr : list Z) (number : Z),
    Fill cfg inputArr number
    = Resolved (repeat (Int32Value number) (length inputArr))
    /\ Count cfg (repeat (Int32Value number) (length inputArr)) number
       = Resolved (Z.of_nat (length inputArr))
    /\ (- 2^31 <= number < 2^31 -> Int32Value number = number)
    /\ Fill cfg [0; 0] 2147483648 = Resolved [-2147483648; -2147483648].
Proof.
  intros cfg inputArr number.
  assert (Hfill : forall (l : list Z) (value : Z),
             QueueAsyncWork Crashed (hpx_fill cfg value (length l))
             = Resolved (repeat value (length l))).
  { intros l value. unfold hpx_fill.
    rewrite run_with_policy_const
      with (v := Ok (repeat value (length l))); [reflexivity|].
    intros _. unfold algo_fill. f_equal.
    induction (length l) as [|n IH]; simpl; [reflexivity|].
    now rewrite IH. }
  split; [|split; [|split]];
    [ | |apply Int32Value_in_range
        |unfold Fill; rewrite Hfill; reflexivity].
  all: unfold Fill, Count; generalize (Int32Value number); intros value.
  - apply Hfill.
  - unfold hpx_count.
    rewrite run_with_policy_const
      with (v := Ok (Z.of_nat (length inputArr))); [reflexivity|].
    intros _. unfold algo_count. do 2 f_equal.
    induction (length inputArr) as [|n IH]; simpl; [reflexivity|].
    rewrite Z.eqb_refl. simpl. now rewrite IH.
Qed.

(** ** merge *)

Lemma merged_nil_l : forall l2, merged [] l2 = l2.
Proof. intros [|a2 r2]; reflexivity. Qed.

Lemma merged_nil_r : forall l1, merged l1 [] = l1.
Proof. intros [|a1 r1]; reflexivity. Qed.

Lemma merged_cons :
  forall a1 r1 a2 r2,
    merged (a1 :: r1) (a2 :: r2)
    = if a2 <? a1 then a2 :: merged (a1 :: r1) r2
      else a1 :: merged r1 (a2 :: r2).
Proof. reflexivity. Qed.

Lemma merged_permutation :
  forall l1 l2, Permutation (l1 ++ l2) (merged l1 l2).
Proof.
  induction l1 as [|a1 r1 IH1]; intros l2.
  - rewrite merged_nil_l. apply Permutation_refl.
  - induction l2 as [|a2 r2 IH2].
    + rewrite merged_nil_r, app_nil_r. apply Permutation_refl.
    + rewrite merged_cons. destruct (a2 <? a1).
      * eapply perm_trans; [apply Permutation_sym, Permutation_middle|].
        apply perm_skip, IH2.
      * simpl. apply perm_skip, IH1.
Qed.

Lemma merged_sorted :
  forall l1 l2,
    Sorted Z.le l1 -> Sorted Z.le l2 -> Sorted Z.le (merged l1 l2).
Proof.
  induction l1 as [|a1 r1 IH1]; intros l2 H1 H2.
  - now rewrite merged_nil_l.
  - induction l2 as [|a2 r2 IH2].
    + now rewrite merged_nil_r.
    + rewrite merged_cons.
      inversion H1 as [|? ? Hs1 Hhd1]; subst.
      inversion H2 as [|? ? Hs2 Hhd2]; subst.
      destruct (Z.ltb_spec a2 a1) as [Hlt|Hge].
      * constructor; [now apply IH2|].
        destruct r2 as [|b r2'].
        -- rewrite merged_nil_r. constructor. lia.
        -- rewrite merged_cons. inversion Hhd2; subst.
           destruct (b <? a1); constructor; lia.
      * constructor; [now apply IH1|].
        destruct r1 as [|c r1'].
        -- rewrite merged_nil_l. now constructor.
        -- rewrite merged_cons. inversion Hhd1; subst.
           destruct (a2 <? c); constructor; lia.
Qed.

Lemma hpx_merge_value :
  forall cfg v1 v2, hpx_merge cfg v1 v2 = Ok (merged v1 v2).
Proof.
  intros cfg v1 v2. unfold hpx_merge.
  apply run_with_policy_const. intros _. unfold algo_merge.
  assert (Hlen : length (merged v1 v2) = (length v1 + length v2)%nat)
    by (rewrite <- (Permutation_length (merged_permutation v1 v2));
        apply length_app).
  rewrite length_repeat_zero, Hlen, Nat.leb_refl.
  rewrite skipn_all2 by (rewrite length_repeat_zero; lia).
  now rewrite app_nil_r.
Qed.

(** X11.  For two ascending arrays, [Merge] resolves with the ascending
    arrangement of all their elements: the same array whichever way round
    the arguments are given, and the one [Sort] resolves with on their
    concatenation. *)
Theorem Merge_of_sorted_arrays :
  forall (L : AlgorithmLibrary) (cfg : HPXUserConfig) (v1 v2 : list Z),
    LibraryContract L ->
    StronglySorted Z.le v1 -> StronglySorted Z.le v2 ->
    exists m,
      Merge cfg v1 v2 = Resolved m
      /\ StronglySorted Z.le m
      /\ Permutation (v1 ++ v2) m
      /\ Merge cfg v2 v1 = Resolved m
      /\ Sort L cfg (v1 ++ v2) = Resolved m.
Proof.
  intros L cfg v1 v2 HL H1 H2.
  assert (Hs : forall a b, StronglySorted Z.le a -> StronglySorted Z.le b ->
                           StronglySorted Z.le (merged a b)).
  { intros a b Ha Hb. apply Sorted_StronglySorted.
    - intros x y z; apply Z.le_trans.
    - apply merged_sorted; now apply StronglySorted_Sorted. }
  exists (merged v1 v2).
  split; [unfold Merge; now rewrite hpx_merge_value|].
  split; [now apply Hs|].
  split; [apply merged_permutation|].
  split.
  - unfold Merge. rewrite hpx_merge_value. simpl. f_equal.
    apply sorted_permutation_unique; try now apply Hs.
    eapply perm_trans; [apply Permutation_sym, merged_permutation|].
    eapply perm_trans; [apply Permutation_app_comm|].
    apply merged_permutation.
  - rewrite Sort_is_insertion_sort by assumption. f_equal.
    apply sorted_permutation_unique.
    + apply insertion_sort_ltb_sorted.
    + now apply Hs.
    + eapply perm_trans;
        [apply Permutation_sym, insertion_sort_by_permutation|].
      apply merged_permutation.
Qed.

Lemma Merge_of_sorted_arrays_witness :
  exists m,
    Merge default_config [1; 3; 5] [2; 4; 6] = Resolved m
    /\ StronglySorted Z.le m
    /\ Permutation ([1; 3; 5] ++ [2; 4; 6]) m
    /\ Merge default_config [2; 4; 6] [1; 3; 5] = Resolved m
    /\ Sort reference_library default_config ([1; 3; 5] ++ [2; 4; 6])
       = Resolved m.
Proof.
  apply (Merge_of_sorted_arrays reference_library default_config
           [1; 3; 5] [2; 4; 6]).
  - exact reference_library_contract.
  - repeat (constructor; try lia).
  - repeat (constructor; try lia).
Defined.

(** ** sortComp *)

Section ByKey.
Variable key : Z -> Z.

Lemma insert_by_key_sorted :
  forall x l,
    Sorted (fun a b => key a <= key b) l ->
    Sorted (fun a b => key a <= key b)
      (insert_by (fun a b => key a <? key b) x l).
Proof.
  intros x l Hs. induction Hs as [|y rest Hrest IH Hhd]; simpl.
  - repeat constructor.
  - destruct (Z.ltb_spec (key y) (key x)) as [Hlt|Hge].
    + constructor; [exact IH|].
      destruct rest as [|z rest']; simpl.
      * constructor. lia.
      * destruct (Z.ltb_spec (key z) (key x)); constructor; [|lia].
        now inversion Hhd.
    + constructor; [now constructor|]. now constructor.
Qed.

Lemma insertion_sort_by_key_sorted :
  forall l,
    StronglySorted (fun a b => key a <= key b)
      (insertion_sort_by (fun a b => key a <? key b) l).
Proof.
  intros l. apply Sorted_StronglySorted.
  - intros a b c Hab Hbc. lia.
  - induction l as [|x rest IH]; simpl.
    + constructor.
    + now apply insert_by_key_sorted.
Qed.

Lemma keys_ascend_along :
  forall l,
    StronglySorted (fun a b => key a <= key b) l ->
    StronglySorted Z.le (map key l).
Proof.
  intros l Hs. induction Hs as [|a rest Hrest IH Hall]; simpl.
  - constructor.
  - constructor; [exact IH|].
    apply Forall_map. exact Hall.
Qed.
End ByKey.

Lemma reference_sort_comp_sorts_by_key : sorts_by_key reference_sort_comp.
Proof.
  intros p keys l. unfold reference_sort_comp. split.
  - apply insertion_sort_by_permutation.
  - apply (insertion_sort_by_key_sorted (fun a => nth (Z.to_nat a) keys 0)).
Qed.

Lemma keys_returned :
  forall tsfn input keys,
    NonBlockingCall_status tsfn = napi_ok ->
    jsFn tsfn input = JsTypedArray napi_int32_array keys ->
    length keys = length input ->
    GetKeyArrayBatchUsingTSFN tsfn input = Ok keys.
Proof.
  intros tsfn input keys Hst Hresp Hlen.
  destruct (batch_call_well_shaped napi_int32_array
              "Failed NonBlockingCall for key extraction."
              "Key extractor must return an Int32Array of same length as input."
              "Key extractor must return Int32Array of same length."
              tsfn input Hst) as (els & Hr & _ & Hc).
  - rewrite Hresp. simpl. now rewrite Hlen, Nat.eqb_refl.
  - rewrite Hresp in Hr. injection Hr as <-. exact Hc.
Qed.

(** X12.  When the key extractor answers with one key per element,
    [SortComp] resolves with a rearrangement of the input taken in an order
    of positions along which the keys never descend. *)
Theorem SortComp_orders_by_key :
  forall (sort_comp : policy -> (Z -> Z -> bool) -> list Z -> list Z)
         (cfg : HPXUserConfig) (tsfn : ThreadSafeFunction)
         (inputArr keys : list Z),
    sorts_by_key sort_comp ->
    NonBlockingCall_status tsfn = napi_ok ->
    jsFn tsfn inputArr = JsTypedArray napi_int32_array keys ->
    length keys = length inputArr ->
    Z.of_nat (length inputArr) < 2^31 ->
    exists order,
      Permutation (map Z.of_nat (seq 0 (length inputArr))) order
      /\ SortComp sort_comp cfg tsfn inputArr
         = Resolved (map (fun j => nth (Z.to_nat j) inputArr 0) order)
      /\ StronglySorted Z.le (map (fun j => nth (Z.to_nat j) keys 0) order)
      /\ Permutation inputArr
           (map (fun j => nth (Z.to_nat j) inputArr 0) order).
Proof.
  intros sort_comp cfg tsfn inputArr keys Hsort Hst Hresp Hlen Hsmall.
  unfold SortComp. rewrite (keys_returned _ _ _ Hst Hresp Hlen). simpl bind.
  unfold hpx_sort_comp. rewrite (index_array_small _ Hsmall).
  destruct (run_with_policy_some _ cfg
              (fun p => Ok (sort_comp p (key_comp keys)
                              (map Z.of_nat (seq 0 (length inputArr)))))
              (N.of_nat (length (map Z.of_nat (seq 0 (length inputArr))))))
    as [p ->].
  destruct (Hsort p keys (map Z.of_nat (seq 0 (length inputArr))))
    as [Hperm Hsorted].
  exists (sort_comp p (key_comp keys)
            (map Z.of_nat (seq 0 (length inputArr)))).
  split; [exact Hperm|]. split; [|split].
  - simpl bind. rewrite gather_in_range; [reflexivity|].
    apply Forall_forall. intros j Hj.
    apply (Permutation_in _ (Permutation_sym Hperm)) in Hj.
    apply in_map_iff in Hj as (i & <- & Hi).
    apply in_seq in Hi. lia.
  - now apply (keys_ascend_along (fun a => nth (Z.to_nat a) keys 0)).
  - rewrite <- (nth_of_positions inputArr) at 1.
    now apply Permutation_map.
Qed.

Lemma SortComp_orders_by_key_witness :
  exists order,
    Permutation (map Z.of_nat (seq 0 (length [30; 10; 20]))) order
    /\ SortComp reference_sort_comp default_config identity_keys [30; 10; 20]
       = Resolved (map (fun j => nth (Z.to_nat j) [30; 10; 20] 0) order)
    /\ StronglySorted Z.le
         (map (fun j => nth (Z.to_nat j) [30; 10; 20] 0) order)
    /\ Permutation [30; 10; 20]
         (map (fun j => nth (Z.to_nat j) [30; 10; 20] 0) order).
Proof.
  apply (SortComp_orders_by_key reference_sort_comp default_config
           identity_keys [30; 10; 20] [30; 10; 20]).
  - exact reference_sort_comp_sorts_by_key.
  - reflexivity.
  - reflexivity.
  - reflexivity.
  - reflexivity.
Defined.

(** ** The manager over its whole life *)

Ltac keep_shape :=
  unfold manager_shape in *; simpl in *;
  repeat match goal with
         | E : ?t = true |- _ => rewrite E in *
         | E : ?t = false |- _ => rewrite E in *
         | E : ?t = None |- _ => rewrite E in *
         end;
  solve [intuition (try congruence; try lia)].

Lemma manager_shape_boot : manager_shape boot.
Proof. keep_shape. Qed.

Lemma InitHPX_keeps_shape :
  forall p f p',
    manager_shape p -> InitHPX p = (Returned f, p') -> manager_shape p'.
Proof.
  intros p f p' Hp H. unfold manager_shape in Hp. unfold InitHPX in H.
  destruct (running_ (manager p)) eqn:Hrun; simpl in H.
  - injection H as _ <-. keep_shape.
  - destruct (hpx_thread_ (manager p)) eqn:Hthr; [discriminate|].
    injection H as _ <-. keep_shape.
Qed.

Lemma FinalizeHPX_keeps_shape :
  forall p r p',
    manager_shape p -> FinalizeHPX p = (r, p') ->
    r <> Blocks -> manager_shape p'.
Proof.
  intros p r p' Hp H Hr. unfold manager_shape in Hp. unfold FinalizeHPX in H.
  destruct (running_ (manager p)) eqn:Hrun; simpl in H.
  2:{ injection H as _ <-. keep_shape. }
  assert (Hnotstarting : engine p <> EngineStarting).
  { intros He. destruct Hp as (_ & _ & _ & Hst).
    destruct (Hst He) as [_ Hf]. congruence. }
  destruct (finalize_promise_ (manager p)) as [pr|] eqn:Hfp.
  - destruct (future_retrieved pr); injection H as _ <-; keep_shape.
  - destruct (finalize_signal_promise_ (manager p)) eqn:Hs.
    + injection H as _ <-. keep_shape.
    + unfold WaitForFinalizeHPX in H. simpl in H.
      destruct (engine p) eqn:He;
        try (injection H as <- _; contradiction).
      simpl in H.
      destruct (nth_error _ _) as [[]|]; simpl in H;
        try (injection H as <- _; contradiction).
      * destruct (hpx_thread_ (manager p)) eqn:Hthr; injection H as _ <-;
          keep_shape.
      * injection H as _ <-. keep_shape.
Qed.

Lemma reachable_manager_shape :
  forall p, reachable p -> manager_shape p.
Proof.
  intros p Hr. induction Hr as [|a p p' _ IH Hstep].
  - apply manager_shape_boot.
  - destruct a; simpl in Hstep.
    + destruct (InitHPX p) as [r q] eqn:HI.
      destruct r; try discriminate.
      * injection Hstep as <-. eapply InitHPX_keeps_shape; eassumption.
      * exfalso. unfold InitHPX in HI.
        destruct (running_ (manager p)); simpl in HI; [discriminate|].
        destruct (hpx_thread_ (manager p)); discriminate.
    + destruct (FinalizeHPX p) as [r q] eqn:HF.
      destruct r; try discriminate; injection Hstep as <-;
        (eapply FinalizeHPX_keeps_shape; [eassumption|eassumption|discriminate]).
    + unfold engine_ready in Hstep.
      destruct (engine p) eqn:He; try discriminate.
      injection Hstep as <-. keep_shape.
    + unfold engine_start_failed in Hstep.
      destruct (engine p) eqn:He; try discriminate.
      injection Hstep as <-. keep_shape.
    + unfold engine_exit in Hstep.
      destruct (engine p) eqn:He; try discriminate.
      injection Hstep as <-. keep_shape.
Qed.

(** X13.  Over every sequence of calls and engine events, a manager
    joins its engine thread at most once, and the threads it started are
    exactly the joined ones plus the thread it still holds. *)
Theorem engine_thread_joined_at_most_once :
  forall p,
    reachable p ->
    (threads_joined p <= 1)%nat
    /\ threads_spawned p
       = (threads_joined p + (if hpx_thread_ (manager p) then 1 else 0))%nat.
Proof.
  intros p Hr. destruct (reachable_manager_shape p Hr) as (Hs & Hj & _).
  auto.
Qed.

Lemma engine_thread_joined_at_most_once_witness :
  (threads_joined (snd (InitHPX boot)) <= 1)%nat
  /\ threads_spawned (snd (InitHPX boot))
     = (threads_joined (snd (InitHPX boot))
        + (if hpx_thread_ (manager (snd (InitHPX boot))) then 1 else 0))%nat.
Proof.
  apply (engine_thread_joined_at_most_once (snd (InitHPX boot))).
  apply (reach_step CallInitHPX boot); [apply reach_boot|reflexivity].
Defined.

(** X14.  When [hpx::start] fails, the future of that [InitHPX] becomes
    ready with -1, but the thread object stays joinable: the next [InitHPX]
    on the manager ends the process instead of starting again. *)
Theorem InitHPX_after_failed_start :
  forall p f p1 p2,
    InitHPX p = (Returned f, p1) ->
    running_ (manager p) = false ->
    engine_start_failed p1 = Some p2 ->
    future_get (futures p2) f = Returned (-1)
    /\ fst (InitHPX p2) = Terminate.
Proof.
  intros p f p1 p2 HI Hrun Hfail.
  unfold InitHPX in HI. rewrite Hrun in HI. simpl in HI.
  destruct (hpx_thread_ (manager p)) eqn:Hthr; [discriminate|].
  injection HI as <- <-.
  unfold engine_start_failed in Hfail. simpl in Hfail.
  injection Hfail as <-. split.
  - simpl.
    assert (Hat : forall (st : store) s,
               nth_error (st ++ [s]) (length st) = Some s).
    { intros st s. rewrite nth_error_app2 by lia.
      now rewrite Nat.sub_diag. }
    assert (Hput : forall (st : store) s s',
               nth_error (put (st ++ [s]) (length st) s') (length st)
               = Some s').
    { induction st as [|x rest IHst]; intros s s'; simpl; [reflexivity|].
      apply IHst. }
    rewrite Hat. rewrite Hput. reflexivity.
  - unfold InitHPX. simpl. rewrite Hrun. reflexivity.
Qed.

Lemma InitHPX_after_failed_start_witness :
  exists p2,
    engine_start_failed (snd (InitHPX boot)) = Some p2
    /\ future_get (futures p2) (FutureOf 0) = Returned (-1)
    /\ fst (InitHPX p2) = Terminate.
Proof.
  eexists. split; [reflexivity|].
  apply (InitHPX_after_failed_start boot (FutureOf 0) (snd (InitHPX boot))).
  - reflexivity.
  - reflexivity.
  - reflexivity.
Defined.

(** ** The finalize job *)

Lemma nth_error_last :
  forall (st : store) (s : shared_state),
    nth_error (st ++ [s]) (length st) = Some s.
Proof.
  intros st s. rewrite nth_error_app2 by lia. now rewrite Nat.sub_diag.
Qed.

Lemma put_last :
  forall (st : store) (s s' : shared_state),
    put (st ++ [s]) (length st) s' = st ++ [s'].
Proof.
  induction st as [|x rest IH]; intros s s'; simpl; [reflexivity|].
  now rewrite IH.
Qed.

(** On a running manager whose engine is parked, [FinalizeHPX] wakes the
    engine, joins the thread and returns a new future ready with 0. *)
Lemma FinalizeHPX_on_parked_engine :
  forall p,
    running_ (manager p) = true ->
    hpx_thread_ (manager p) = true ->
    finalize_promise_ (manager p) = None ->
    finalize_signal_promise_ (manager p) = false ->
    engine p = EngineParked ->
    FinalizeHPX p =
    (Returned (FutureOf (S (length (futures p)))),
     {| futures := (futures p ++ [Ready 0]) ++ [Ready 0];
        manager :=
          set_hpx_thread false
            (set_finalize_signal
               (set_finalize_promise
                  (Some {| state_of := length (futures p);
                           future_retrieved := true |}) (manager p)));
        engine := EngineWoken;
        threads_spawned := threads_spawned p;
        threads_joined := S (threads_joined p) |}).
Proof.
  intros p Hrun Hthr Hfp Hsig Heng.
  unfold FinalizeHPX. rewrite Hrun, Hfp, Hsig. simpl.
  unfold WaitForFinalizeHPX. simpl. rewrite Heng. simpl.
  rewrite nth_error_last, put_last, nth_error_last, Hthr. simpl.
  rewrite length_app. simpl. rewrite Nat.add_1_r. reflexivity.
Qed.

(** X15.  The finalize job on a running runtime resolves [true], joins the
    engine thread and leaves a newly built manager behind, on which
    [InitHPX] starts a thread again and hands out a pending future. *)
Theorem finalize_then_init_starts_afresh :
  forall (p : process) (handles : list tsfn_handle),
    running_ (manager p) = true ->
    hpx_thread_ (manager p) = true ->
    finalize_promise_ (manager p) = None ->
    finalize_signal_promise_ (manager p) = false ->
    engine p = EngineParked ->
    exists s f p',
      run [JobThread; JobThread; JobThread; JobThread]
        (finalize_queued p handles) = Some s
      /\ deferred s = Some (Resolved true)
      /\ threads_joined (proc s) = S (threads_joined p)
      /\ manager (proc s) = HPXManager_new
      /\ InitHPX (proc s) = (Returned f, p')
      /\ future_get (futures p') f = Blocks
      /\ threads_spawned p' = S (threads_spawned p)
      /\ engine p' = EngineStarting.
Proof.
  intros p handles Hrun Hthr Hfp Hsig Heng.
  unfold finalize_queued.
  cbn [run thread_step]. unfold job_step at 1. cbn [finalize_job proc].
  rewrite (FinalizeHPX_on_parked_engine p Hrun Hthr Hfp Hsig Heng).
  cbn [future_get futures].
  replace (S (length (futures p))) with (length (futures p ++ [Ready 0]))
    by (rewrite length_app; simpl; lia).
  rewrite nth_error_last. cbn.
  destruct (ReleaseAllTSFNs (fold_left _ handles TSFNManager_new))
    as [r started].
  eexists. eexists. eexists.
  split; [reflexivity|]. cbn.
  split; [reflexivity|]. split; [reflexivity|]. split; [reflexivity|].
  unfold InitHPX. cbn.
  split; [reflexivity|]. cbn.
  split; [now rewrite nth_error_last|].
  split; reflexivity.
Qed.

Lemma finalize_then_init_starts_afresh_witness :
  exists p s f p',
    running_process = Some p
    /\ run [JobThread; JobThread; JobThread; JobThread]
         (finalize_queued p [Some 7%nat]) = Some s
    /\ deferred s = Some (Resolved true)
    /\ threads_joined (proc s) = S (threads_joined p)
    /\ manager (proc s) = HPXManager_new
    /\ InitHPX (proc s) = (Returned f, p')
    /\ future_get (futures p') f = Blocks
    /\ threads_spawned p' = S (threads_spawned p)
    /\ engine p' = EngineStarting.
Proof.
  eexists. 
  destruct (finalize_then_init_starts_afresh
              {| futures := [Ready 0];
                 manager :=
                   {| hpx_thread_ := true;
                      init_promise_ :=
                        Some {| state_of := 0; future_retrieved := true |};
                      finalize_promise_ := None;
                      running_ := true;
                      finalize_signal_promise_ := false |};
                 engine := EngineParked;
                 threads_spawned := 1;
                 threads_joined := 0 |}
              [Some 7%nat] eq_refl eq_refl eq_refl eq_refl eq_refl)
    as (s & f & p' & H).
  exists s, f, p'. split; [reflexivity|exact H].
Defined.

(** X16.  The finalize job on a manager that is not running and holds no
    thread, whatever the registry went through before, rejects with
    "Failed to finalize HPX." and joins nothing; it still replaces the
    manager and asks the registry to release: a release thread is started
    when the registry was not releasing yet, and nothing is started, the
    registry left as it was, when it was (its flag is never cleared, so every
    finalize after the first finds it set). *)
Theorem finalize_without_runtime_rejects :
  forall (p : process) (r : TSFNManager) (rt : release_phase)
         (done : list nat),
    running_ (manager p) = false ->
    hpx_thread_ (manager p) = false ->
    exists s,
      run [JobThread; JobThread; JobThread; JobThread]
        (finalize_queued_on p r rt done) = Some s
      /\ deferred s = Some (Rejected "Failed to finalize HPX.")
      /\ threads_joined (proc s) = threads_joined p
      /\ manager (proc s) = HPXManager_new
      /\ releasing_ (registry s) = true
      /\ release_thread s = (if releasing_ r then rt else Spawned)
      /\ (releasing_ r = true -> registry s = r)
      /\ released s = done.
Proof.
  intros p r rt done Hrun Hthr.
  unfold finalize_queued_on.
  cbn [run thread_step]. unfold job_step at 1. cbn [finalize_job proc].
  unfold FinalizeHPX. rewrite Hrun. cbn.
  rewrite nth_error_last. cbn.
  unfold resetHPXManager, destroy_members. cbn. rewrite Hthr. cbn.
  unfold ReleaseAllTSFNs.
  destruct (releasing_ r) eqn:Hrel; cbn;
    (eexists; split; [reflexivity|]; cbn; rewrite ?Hrel;
     do 5 (split; [reflexivity|]));
    (split; [|reflexivity]).
  - intros _. reflexivity.
  - discriminate.
Qed.

Lemma finalize_without_runtime_rejects_witness :
  exists s,
    run [JobThread; JobThread; JobThread; JobThread]
      (finalize_queued_on boot
         {| tsfn_list_ := []; releasing_ := true;
            release_thread_ := true; release_completed_ := true |}
         ReleaseDone [7%nat]) = Some s
    /\ deferred s = Some (Rejected "Failed to finalize HPX.")
    /\ threads_joined (proc s) = threads_joined boot
    /\ manager (proc s) = HPXManager_new
    /\ releasing_ (registry s) = true
    /\ release_thread s = ReleaseDone
    /\ released s = [7%nat].
Proof.
  destruct (finalize_without_runtime_rejects boot
              {| tsfn_list_ := []; releasing_ := true;
                 release_thread_ := true; release_completed_ := true |}
              ReleaseDone [7%nat] eq_refl eq_refl)
    as (s & Hs & Hd & Hj & Hm & Hr & Ht & _ & Hdone).
  exists s. repeat (split; [assumption|]). assumption.
Defined.



(** ** The registry *)

Lemma thread_step_keeps_releasing :
  forall t s s',
    releasing_ (registry s) = true ->
    thread_step t s = Some s' ->
    releasing_ (registry s') = true.
Proof.
  intros [] s s' Hrel Hstep; simpl in Hstep.
  - unfold job_step in Hstep.
    destruct (finalize_job s).
    + destruct (FinalizeHPX (proc s)) as [[f|e| |] q]; try discriminate.
      * destruct (future_get (futures q) f); try discriminate;
          injection Hstep as <-; exact Hrel.
      * injection Hstep as <-. exact Hrel.
    + destruct (resetHPXManager (proc s)) as [[u|e| |] q]; try discriminate.
      injection Hstep as <-. exact Hrel.
    + unfold ReleaseAllTSFNs in Hstep. rewrite Hrel in Hstep.
      injection Hstep as <-. exact Hrel.
    + injection Hstep as <-. exact Hrel.
    + discriminate.
  - unfold release_step in Hstep.
    destruct (release_thread s) as [| |[|h rest]|]; try discriminate;
      injection Hstep as <-; exact Hrel.
Qed.

(** X18.  Releasing is idempotent and final: after [ReleaseAllTSFNs] the
    registry is releasing, a second call starts no second thread and
    changes nothing, [RegisterTSFN] is ignored, and no step of the job or
    of the release thread ever clears the flag again. *)
Theorem registry_closes_for_good :
  forall (r : TSFNManager),
    releasing_ (fst (ReleaseAllTSFNs r)) = true
    /\ ReleaseAllTSFNs (fst (ReleaseAllTSFNs r))
       = (fst (ReleaseAllTSFNs r), false)
    /\ (forall h,
          RegisterTSFN h (fst (ReleaseAllTSFNs r))
          = fst (ReleaseAllTSFNs r))
    /\ (forall schedule s s',
          releasing_ (registry s) = true ->
          run schedule s = Some s' ->
          releasing_ (registry s') = true).
Proof.
  intros r.
  assert (H1 : releasing_ (fst (ReleaseAllTSFNs r)) = true).
  { unfold ReleaseAllTSFNs. destruct (releasing_ r) eqn:E; simpl; auto. }
  split; [exact H1|]. split; [|split].
  - unfold ReleaseAllTSFNs at 1. now rewrite H1.
  - intros h. unfold RegisterTSFN. now rewrite H1.
  - induction schedule as [|t rest IH]; intros s s' Hrel Hrun;
      simpl in Hrun.
    + now injection Hrun as <-.
    + destruct (thread_step t s) as [s1|] eqn:Hstep; [|discriminate].
      eapply IH; [|exact Hrun].
      eapply thread_step_keeps_releasing; eassumption.
Qed.

Lemma release_thread_drains_snapshot :
  forall tsfn_copy s,
    release_thread s = Releasing tsfn_copy ->
    exists s',
      run (repeat ReleaseThread (S (length tsfn_copy))) s = Some s'
      /\ released s' = released s ++ non_null tsfn_copy
      /\ tsfn_list_ (registry s') = tsfn_list_ (registry s)
      /\ release_completed_ (registry s') = true
      /\ release_thread s' = ReleaseDone.
Proof.
  induction tsfn_copy as [|h rest IH]; intros s Hs.
  - simpl. unfold release_step. rewrite Hs.
    eexists. split; [reflexivity|]. simpl.
    now rewrite app_nil_r.
  - change (repeat ReleaseThread (S (length (h :: rest))))
      with (ReleaseThread :: repeat ReleaseThread (S (length rest))).
    cbn [run thread_step]. unfold release_step at 1.
    rewrite Hs. cbn beta iota.
    match goal with
    | |- exists s', run _ ?s1 = _ /\ _ =>
        destruct (IH s1 eq_refl) as (s' & Hrun & Hrel & Hl & Hdone & Hph)
    end.
    exists s'. split; [exact Hrun|].
    split; [|now repeat split].
    rewrite Hrel. simpl. destruct h; simpl; [|reflexivity].
    now rewrite <- app_assoc.
Qed.

(** X19.  Once started and left to run, the release thread empties the
    registry, calls [Release] once on every non-null handle it held, in the
    order of registration, sets the completion flag and ends. *)
Theorem release_thread_releases_each_handle_once :
  forall (s : system),
    release_thread s = Spawned ->
    exists s',
      run (repeat ReleaseThread (2 + length (tsfn_list_ (registry s)))) s
      = Some s'
      /\ released s' = released s ++ non_null (tsfn_list_ (registry s))
      /\ tsfn_list_ (registry s') = []
      /\ release_completed_ (registry s') = true
      /\ release_step s' = None.
Proof.
  intros s Hs.
  change (repeat ReleaseThread (2 + length (tsfn_list_ (registry s))))
    with (ReleaseThread
            :: repeat ReleaseThread (S (length (tsfn_list_ (registry s))))).
  cbn [run thread_step]. unfold release_step at 1. rewrite Hs.
  cbn beta iota.
  match goal with
  | |- exists s', run _ ?s1 = _ /\ _ =>
      destruct (release_thread_drains_snapshot
                  (tsfn_list_ (registry s)) s1 eq_refl)
        as (s' & Hrun & Hrel & Hl & Hdone & Hph)
  end.
  exists s'. split; [exact Hrun|].
  split; [exact Hrel|]. split; [exact Hl|]. split; [exact Hdone|].
  unfold release_step. now rewrite Hph.
Qed.

Lemma release_thread_releases_each_handle_once_witness :
  exists s',
    run (repeat ReleaseThread 5)
      (release_started [Some 7%nat; None; Some 9%nat]) = Some s'
    /\ released s' = [7%nat; 9%nat]
    /\ tsfn_list_ (registry s') = []
    /\ release_completed_ (registry s') = true
    /\ release_step s' = None.
Proof.
  apply (release_thread_releases_each_handle_once
           (release_started [Some 7%nat; None; Some 9%nat])).
  reflexivity.
Defined.

(** ** Logging *)

Lemma CURRENT_LOG_LEVEL_range :
  forall b, 0 <= CURRENT_LOG_LEVEL b <= 2.
Proof.
  intros [[] [] []]; unfold CURRENT_LOG_LEVEL; simpl;
    unfold LOG_LEVEL_INFO, LOG_LEVEL_DEBUG, LOG_LEVEL_WARN; lia.
Qed.

(** X20.  A debug message is written only by a build that defines
    [HPX_ADDON_DEBUG] and not [HPX_ADDON_RELEASE], and then only while
    logging is enabled at level Debug: in every other build the level set at
    run time cannot bring debug messages back. *)
Theorem LOG_DEBUG_needs_a_debug_build :
  forall (b : build_flags) (lg : Logger),
    LOG_DEBUG b lg = true <->
    HPX_ADDON_RELEASE b = false /\ HPX_ADDON_DEBUG b = true
    /\ enabled_ lg = true /\ currentLevel_ lg = LevelDebug.
Proof.
  intros [[] [] []] [[] []]; unfold LOG_DEBUG, CURRENT_LOG_LEVEL; simpl;
    split; intros H; try discriminate; try reflexivity;
    try (repeat split; reflexivity);
    try (destruct H as (H1 & H2 & H3 & H4); discriminate).
Qed.

(** X21.  In every build a message that is written at one severity is
    written at every higher one, and an error message is written exactly
    when logging is enabled and the level is not None. *)
Theorem log_macros_are_monotone :
  forall (b : build_flags) (lg : Logger),
    (LOG_DEBUG b lg = true -> LOG_INFO b lg = true)
    /\ (LOG_INFO b lg = true -> LOG_WARN b lg = true)
    /\ (LOG_WARN b lg = true -> LOG_ERROR b lg = true)
    /\ (LOG_ERROR b lg = true <->
        enabled_ lg = true /\ currentLevel_ lg <> LevelNone).
Proof.
  intros [[] [] []] [[] []]; unfold LOG_DEBUG, LOG_INFO, LOG_WARN, LOG_ERROR,
    CURRENT_LOG_LEVEL; simpl;
    (repeat split; try discriminate; try reflexivity; try tauto;
     try (intros [H1 H2]; try discriminate; now contradiction H2)).
Qed.

(** ** The configuration *)

Lemma level_of_config_not_none :
  forall c, level_of_config c <> LevelNone.
Proof.
  intros c. unfold level_of_config.
  repeat match goal with
         | |- context [if ?x then _ else _] => destruct x
         end; discriminate.
Qed.

Lemma LOG_ERROR_when_enabled :
  forall b lg,
    currentLevel_ lg <> LevelNone -> LOG_ERROR b lg = enabled_ lg.
Proof.
  intros [[] [] []] [[] []] H; unfold LOG_ERROR, CURRENT_LOG_LEVEL; simpl;
    try reflexivity; now contradiction H.
Qed.

(** X22.  When [SetUserConfigFromNapiObject] returns, the logger is
    enabled exactly when [loggingEnabled] is set and never at level None, so
    that errors are logged, in every build, exactly when logging is enabled;
    when it throws, the logger is left as it was. *)
Theorem logger_follows_the_configuration :
  forall (configObj : napi_object) (g : globals),
    let g' := fst (SetUserConfigFromNapiObject configObj g) in
    (snd (SetUserConfigFromNapiObject configObj g) = true ->
     enabled_ (the_logger g') = loggingEnabled (g_user_config g')
     /\ currentLevel_ (the_logger g') = level_of_config (g_user_config g')
     /\ forall b, LOG_ERROR b (the_logger g')
                  = loggingEnabled (g_user_config g'))
    /\ (snd (SetUserConfigFromNapiObject configObj g) = false ->
        the_logger g' = the_logger g).
Proof.
  intros configObj g. unfold SetUserConfigFromNapiObject.
  destruct (in_order _ (g_user_config g)) as [c ok]. simpl.
  destruct ok; simpl; split; try discriminate; intros _.
  - split; [reflexivity|]. split; [reflexivity|].
    intros b. rewrite LOG_ERROR_when_enabled; [reflexivity|].
    simpl. apply level_of_config_not_none.
  - reflexivity.
Qed.

Lemma parse_executionPolicy_valid :
  forall j c c',
    valid_config c -> parse_executionPolicy j c = Some c' -> valid_config c'.
Proof.
  intros j c c' Hv H. unfold parse_executionPolicy in H.
  destruct (json_find j "executionPolicy") as [[policy| |]|];
    simpl in H; try discriminate; try (injection H as <-; exact Hv).
  destruct (String.eqb_spec policy "seq") as [E|_];
    [injection H as <-; unfold valid_config in *; simpl; tauto|].
  destruct (String.eqb_spec policy "par") as [E|_];
    [injection H as <-; unfold valid_config in *; simpl; tauto|].
  destruct (String.eqb_spec policy "par_unseq") as [E|_];
    injection H as <-; [unfold valid_config in *; simpl; tauto|exact Hv].
Qed.

Lemma parse_threshold_valid :
  forall j c c',
    valid_config c -> parse_threshold j c = Some c' -> valid_config c'.
Proof.
  intros j c c' Hv H. unfold parse_threshold in H.
  destruct (json_find j "threshold") as [[|t|]|];
    simpl in H; try discriminate; try (injection H as <-; exact Hv).
  destruct (Z.ltb_spec 0 t); injection H as <-; [|exact Hv].
  unfold valid_config in *; simpl. intuition lia.
Qed.

Lemma parse_threadCount_valid :
  forall j c c',
    valid_config c -> parse_threadCount j c = Some c' -> valid_config c'.
Proof.
  intros j c c' Hv H. unfold parse_threadCount in H.
  destruct (json_find j "threadCount") as [[|t|]|];
    simpl in H; try discriminate; try (injection H as <-; exact Hv).
  destruct (Z.ltb_spec 0 t); injection H as <-; [|exact Hv].
  unfold valid_config in *; simpl. intuition lia.
Qed.

Lemma parse_loggingEnabled_valid :
  forall j c c',
    valid_config c -> parse_loggingEnabled j c = Some c' -> valid_config c'.
Proof.
  intros j c c' Hv H. unfold parse_loggingEnabled in H.
  destruct (json_find j "loggingEnabled") as [[| |b]|];
    simpl in H; try discriminate; injection H as <-; exact Hv.
Qed.

Lemma parse_logLevel_valid :
  forall j c c',
    valid_config c -> parse_logLevel j c = Some c' -> valid_config c'.
Proof.
  intros j c c' Hv H. unfold parse_logLevel in H.
  destruct (json_find j "logLevel") as [[l| |]|];
    simpl in H; try discriminate; try (injection H as <-; exact Hv).
  destruct (String.eqb_spec (ToUpperCase l) "DEBUG") as [E|_];
    [injection H as <-; unfold valid_config in *; simpl; tauto|].
  destruct (String.eqb_spec (ToUpperCase l) "INFO") as [E|_];
    [injection H as <-; unfold valid_config in *; simpl; tauto|].
  destruct (String.eqb_spec (ToUpperCase l) "WARN") as [E|_];
    [injection H as <-; unfold valid_config in *; simpl; tauto|].
  destruct (String.eqb_spec (ToUpperCase l) "ERROR") as [E|_];
    injection H as <-; unfold valid_config in *; simpl; tauto.
Qed.

Lemma parse_addonName_valid :
  forall j c c',
    valid_config c -> parse_addonName j c = Some c' -> valid_config c'.
Proof.
  intros j c c' Hv H. unfold parse_addonName in H.
  destruct (json_find j "addonName") as [[name| |]|];
    simpl in H; try discriminate; try (injection H as <-; exact Hv).
  destruct (String.eqb_spec name "") as [E|Hne]; simpl in H;
    injection H as <-; [exact Hv|].
  unfold valid_config in *; simpl. tauto.
Qed.

Lemma in_order_valid :
  forall blocks,
    Forall (fun block => forall c c',
              valid_config c -> block c = Some c' -> valid_config c')
           blocks ->
    forall c, valid_config c -> valid_config (fst (in_order blocks c)).
Proof.
  intros blocks Hall. induction Hall as [|block rest Hb _ IH];
    intros c Hv; simpl.
  - exact Hv.
  - destruct (block c) as [c'|] eqn:E; [|exact Hv].
    apply IH. eapply Hb; eassumption.
Qed.

Lemma default_config_valid : valid_config default_config.
Proof.
  unfold valid_config, default_config; simpl.
  repeat split; try lia; try tauto; discriminate.
Qed.

(** X23.  Whatever object it is given, and whether it returns or throws,
    [SetUserConfigFromNapiObject] keeps the configuration within its valid
    values: a policy among "seq", "par" and "par_unseq", a positive
    threshold and thread count, a level among the four names, a non-empty
    addon name. *)
Theorem configuration_stays_valid :
  forall (configObj : napi_object) (g : globals),
    valid_config (g_user_config g) ->
    valid_config
      (g_user_config (fst (SetUserConfigFromNapiObject configObj g))).
Proof.
  intros configObj g Hv. unfold SetUserConfigFromNapiObject.
  pose proof (in_order_valid
                [parse_executionPolicy (to_json configObj);
                 parse_threshold (to_json configObj);
                 parse_threadCount (to_json configObj);
                 parse_loggingEnabled (to_json configObj);
                 parse_logLevel (to_json configObj);
                 parse_addonName (to_json configObj)]) as Hin.
  destruct (in_order _ (g_user_config g)) as [c ok] eqn:E.
  assert (Hc : valid_config c).
  { change c with (fst (c, ok)). rewrite <- E. apply Hin; [|exact Hv].
    apply Forall_cons; [exact (parse_executionPolicy_valid _)|].
    apply Forall_cons; [exact (parse_threshold_valid _)|].
    apply Forall_cons; [exact (parse_threadCount_valid _)|].
    apply Forall_cons; [exact (parse_loggingEnabled_valid _)|].
    apply Forall_cons; [exact (parse_logLevel_valid _)|].
    apply Forall_cons; [exact (parse_addonName_valid _)|].
    apply Forall_nil. }
  destruct ok; exact Hc.
Qed.

Lemma configuration_stays_valid_witness :
  valid_config
    (g_user_config
       (fst (SetUserConfigFromNapiObject
               [("executionPolicy", NapiString "fast");
                ("threshold", NapiNumber (-5));
                ("logLevel", NapiString "verbose");
                ("threadCount", NapiBoolean true)]
               initial_globals))).
Proof.
  apply configuration_stays_valid. exact default_config_valid.
Defined.

Lemma json_find_filter_other :
  forall (j : json_object) (k k' : string),
    k <> k' ->
    json_find (filter (fun kv => negb (String.eqb k' (fst kv))) j) k
    = json_find j k.
Proof.
  induction j as [|[a x] rest IH]; intros k k' Hne; simpl.
  - reflexivity.
  - destruct (String.eqb_spec k' a) as [Ea|Na]; simpl.
    + rewrite IH by assumption.
      destruct (String.eqb_spec k a); [congruence|reflexivity].
    + now rewrite IH.
Qed.

Lemma json_find_set_other :
  forall (j : json_object) (k k' : string) (v : json),
    k <> k' -> json_find (json_set k' v j) k = json_find j k.
Proof.
  intros j k k' v Hne. unfold json_set. simpl.
  destruct (String.eqb_spec k k'); [contradiction|].
  now apply json_find_filter_other.
Qed.

Lemma to_json_leaves_out :
  forall (configObj : napi_object) (k : string) (j : json_object),
    (forall v, In (k, v) configObj -> v = NapiOther) ->
    json_find j k = None ->
    json_find
      (fold_left
         (fun j kv =>
            match snd kv with
            | NapiString s => json_set (fst kv) (JString s) j
            | NapiNumber num => json_set (fst kv) (JNumber num) j
            | NapiBoolean b => json_set (fst kv) (JBoolean b) j
            | NapiOther => j
            end) configObj j) k = None.
Proof.
  induction configObj as [|[a x] rest IH]; intros k j Hother Hj; simpl.
  - exact Hj.
  - apply IH.
    + intros v Hv. apply Hother. now right.
    + assert (Hak : x <> NapiOther -> k <> a).
      { intros Hx ->. apply Hx. apply Hother. now left. }
      destruct x; cbn [snd fst]; try exact Hj;
        (rewrite json_find_set_other; [exact Hj|apply Hak; discriminate]).
Qed.

(** X24.  Properties the function does not know, and known ones whose
    value is neither string, number nor boolean, change nothing: an object
    made only of such properties leaves the configuration as it is and
    initialises the logger from it. *)
Theorem unknown_properties_are_ignored :
  forall (configObj : napi_object) (g : globals),
    (forall k v, In (k, v) configObj -> In k known_keys -> v = NapiOther) ->
    SetUserConfigFromNapiObject configObj g
    = ({| g_user_config := g_user_config g;
          the_logger :=
            Logger_initialize (loggingEnabled (g_user_config g))
              (level_of_config (g_user_config g)) (the_logger g) |}, true).
Proof.
  intros configObj g Hunknown.
  assert (Hnone : forall k, In k known_keys ->
                            json_find (to_json configObj) k = None).
  { intros k Hk. unfold to_json. apply to_json_leaves_out; [|reflexivity].
    intros v Hv. now apply (Hunknown k v). }
  unfold SetUserConfigFromNapiObject. cbn [in_order].
  unfold parse_executionPolicy, parse_threshold, parse_threadCount,
    parse_loggingEnabled, parse_logLevel, parse_addonName.
  rewrite !Hnone by (unfold known_keys; simpl; tauto).
  reflexivity.
Qed.

Lemma unknown_properties_are_ignored_witness :
  SetUserConfigFromNapiObject
    [("verbose", NapiBoolean true); ("threshold", NapiOther)]
    initial_globals
  = ({| g_user_config := default_config;
        the_logger := Logger_initialize true LevelInfo Logger_new |}, true).
Proof.
  apply (unknown_properties_are_ignored
           [("verbose", NapiBoolean true); ("threshold", NapiOther)]
           initial_globals).
  intros k v [H|[H|[]]] Hk; injection H as <- <-.
  - simpl in Hk. intuition discriminate.
  - reflexivity.
Defined.

Ltac block_fields H :=
  match type of H with
  | ?block ?j ?c = Some ?c' =>
      unfold block in H;
      destruct (json_find j _) as [[]|]; simpl in H; try discriminate;
      repeat match type of H with
             | context [if ?x then _ else _] => destruct x
             end;
      injection H as <-; simpl; repeat split; reflexivity
  end.

Lemma parse_executionPolicy_fields :
  forall j c c',
    parse_executionPolicy j c = Some c' ->
    executionPolicy c'
    = match json_find j "executionPolicy" with
      | Some (JString s) =>
          if String.eqb s "seq" || String.eqb s "par"
             || String.eqb s "par_unseq"
          then s else executionPolicy c
      | _ => executionPolicy c
      end
    /\ threshold c' = threshold c /\ threadCount c' = threadCount c
    /\ loggingEnabled c' = loggingEnabled c /\ logLevel c' = logLevel c
    /\ addonName c' = addonName c.
Proof. intros j c c' H. block_fields H. Qed.

Lemma parse_threshold_fields :
  forall j c c',
    parse_threshold j c = Some c' ->
    threshold c'
    = match json_find j "threshold" with
      | Some (JNumber t) => if 0 <? t then Z.to_N t else threshold c
      | _ => threshold c
      end
    /\ executionPolicy c' = executionPolicy c
    /\ threadCount c' = threadCount c
    /\ loggingEnabled c' = loggingEnabled c /\ logLevel c' = logLevel c
    /\ addonName c' = addonName c.
Proof. intros j c c' H. block_fields H. Qed.

Lemma parse_threadCount_fields :
  forall j c c',
    parse_threadCount j c = Some c' ->
    threadCount c'
    = match json_find j "threadCount" with
      | Some (JNumber tc) => if 0 <? tc then Z.to_N tc else threadCount c
      | _ => threadCount c
      end
    /\ executionPolicy c' = executionPolicy c /\ threshold c' = threshold c
    /\ loggingEnabled c' = loggingEnabled c /\ logLevel c' = logLevel c
    /\ addonName c' = addonName c.
Proof. intros j c c' H. block_fields H. Qed.

Lemma parse_loggingEnabled_fields :
  forall j c c',
    parse_loggingEnabled j c = Some c' ->
    loggingEnabled c'
    = match json_find j "loggingEnabled" with
      | Some (JBoolean b) => b
      | _ => loggingEnabled c
      end
    /\ executionPolicy c' = executionPolicy c /\ threshold c' = threshold c
    /\ threadCount c' = threadCount c /\ logLevel c' = logLevel c
    /\ addonName c' = addonName c.
Proof. intros j c c' H. block_fields H. Qed.

Lemma parse_logLevel_fields :
  forall j c c',
    parse_logLevel j c = Some c' ->
    logLevel c'
    = match json_find j "logLevel" with
      | Some (JString l) =>
          if String.eqb (ToUpperCase l) "DEBUG"
             || String.eqb (ToUpperCase l) "INFO"
             || String.eqb (ToUpperCase l) "WARN"
             || String.eqb (ToUpperCase l) "ERROR"
          then ToUpperCase l else "INFO"
      | _ => logLevel c
      end
    /\ executionPolicy c' = executionPolicy c /\ threshold c' = threshold c
    /\ threadCount c' = threadCount c
    /\ loggingEnabled c' = loggingEnabled c
    /\ addonName c' = addonName c.
Proof. intros j c c' H. block_fields H. Qed.

Lemma parse_addonName_fields :
  forall j c c',
    parse_addonName j c = Some c' ->
    addonName c'
    = match json_find j "addonName" with
      | Some (JString name) =>
          if String.eqb name "" then addonName c else name
      | _ => addonName c
      end
    /\ executionPolicy c' = executionPolicy c /\ threshold c' = threshold c
    /\ threadCount c' = threadCount c
    /\ loggingEnabled c' = loggingEnabled c /\ logLevel c' = logLevel c.
Proof.
  intros j c c' H. unfold parse_addonName in H.
  destruct (json_find j "addonName") as [[name| |]|]; simpl in H;
    try discriminate;
    [destruct (String.eqb name ""); simpl in H|];
    injection H as <-; simpl; repeat split; reflexivity.
Qed.

(** X25.  When [SetUserConfigFromNapiObject] returns, every setting is
    decided by its own property alone: a policy name other than the three
    known ones, a threshold or thread count that is not positive and an
    empty addon name leave the previous value, whereas a level name that is
    not one of the four (in any letter case) sets the level to "INFO". *)
Theorem each_setting_follows_its_own_property :
  forall (configObj : napi_object) (g g' : globals),
    SetUserConfigFromNapiObject configObj g = (g', true) ->
    let j := to_json configObj in
    let c := g_user_config g in
    let c' := g_user_config g' in
    executionPolicy c'
    = match json_find j "executionPolicy" with
      | Some (JString s) =>
          if String.eqb s "seq" || String.eqb s "par"
             || String.eqb s "par_unseq"
          then s else executionPolicy c
      | _ => executionPolicy c
      end
    /\ threshold c'
       = match json_find j "threshold" with
         | Some (JNumber t) => if 0 <? t then Z.to_N t else threshold c
         | _ => threshold c
         end
    /\ threadCount c'
       = match json_find j "threadCount" with
         | Some (JNumber tc) => if 0 <? tc then Z.to_N tc else threadCount c
         | _ => threadCount c
         end
    /\ loggingEnabled c'
       = match json_find j "loggingEnabled" with
         | Some (JBoolean b) => b
         | _ => loggingEnabled c
         end
    /\ logLevel c'
       = match json_find j "logLevel" with
         | Some (JString l) =>
             if String.eqb (ToUpperCase l) "DEBUG"
                || String.eqb (ToUpperCase l) "INFO"
                || String.eqb (ToUpperCase l) "WARN"
                || String.eqb (ToUpperCase l) "ERROR"
             then ToUpperCase l else "INFO"
         | _ => logLevel c
         end
    /\ addonName c'
       = match json_find j "addonName" with
         | Some (JString name) =>
             if String.eqb name "" then addonName c else name
         | _ => addonName c
         end.
Proof.
  intros configObj g g' H j c c'. subst j c c'.
  unfold SetUserConfigFromNapiObject in H. cbn [in_order] in H.
  destruct (parse_executionPolicy _ _) as [c1|] eqn:E1;
    [|simpl in H; discriminate].
  destruct (parse_threshold _ c1) as [c2|] eqn:E2;
    [|simpl in H; discriminate].
  destruct (parse_threadCount _ c2) as [c3|] eqn:E3;
    [|simpl in H; discriminate].
  destruct (parse_loggingEnabled _ c3) as [c4|] eqn:E4;
    [|simpl in H; discriminate].
  destruct (parse_logLevel _ c4) as [c5|] eqn:E5;
    [|simpl in H; discriminate].
  destruct (parse_addonName _ c5) as [c6|] eqn:E6;
    [|simpl in H; discriminate].
  simpl in H. injection H as <-. simpl.
  apply parse_executionPolicy_fields in E1.
  apply parse_threshold_fields in E2.
  apply parse_threadCount_fields in E3.
  apply parse_loggingEnabled_fields in E4.
  apply parse_logLevel_fields in E5.
  apply parse_addonName_fields in E6.
  destruct E1 as (P1 & T1 & C1 & L1 & V1 & A1).
  destruct E2 as (T2 & P2 & C2 & L2 & V2 & A2).
  destruct E3 as (C3 & P3 & T3 & L3 & V3 & A3).
  destruct E4 as (L4 & P4 & T4 & C4 & V4 & A4).
  destruct E5 as (V5 & P5 & T5 & C5 & L5 & A5).
  destruct E6 as (A6 & P6 & T6 & C6 & L6 & V6).
  repeat split.
  - now rewrite P6, P5, P4, P3, P2, P1.
  - now rewrite T6, T5, T4, T3, T2, T1.
  - now rewrite C6, C5, C4, C3, C2, C1.
  - now rewrite L6, L5, L4, L3, L2, L1.
  - now rewrite V6, V5, V4, V3, V2, V1.
  - now rewrite A6, A5, A4, A3, A2, A1.
Qed.

Lemma each_setting_follows_its_own_property_witness :
  let g' := fst (SetUserConfigFromNapiObject
                   [("executionPolicy", NapiString "fast");
                    ("logLevel", NapiString "verbose")] initial_globals) in
  executionPolicy (g_user_config g') = "par"
  /\ logLevel (g_user_config g') = "INFO".
Proof.
  destruct (each_setting_follows_its_own_property
              [("executionPolicy", NapiString "fast");
               ("logLevel", NapiString "verbose")]
              initial_globals
              (fst (SetUserConfigFromNapiObject
                      [("executionPolicy", NapiString "fast");
                       ("logLevel", NapiString "verbose")] initial_globals))
              eq_refl) as (HP & _ & _ & _ & HL & _).
  split; [exact HP|exact HL].
Defined.

Lemma toupper_idempotent : forall c, toupper (toupper c) = toupper c.
Proof. intros [[] [] [] [] [] [] [] []]; reflexivity. Qed.

Lemma ToUpperCase_idempotent :
  forall s, ToUpperCase (ToUpperCase s) = ToUpperCase s.
Proof.
  induction s as [|c rest IH]; simpl; [reflexivity|].
  now rewrite toupper_idempotent, IH.
Qed.

(** X26.  Level names are read without regard to letter case, and the
    two places that read them agree: for a "logLevel" given as a string,
    the level the logger is initialised with is the one
    [Logger::stringToLogLevel] gives for that string, which is also the one
    it gives for the string in upper case. *)
Theorem level_names_ignore_case :
  forall (j : json_object) (c : HPXUserConfig) (l : string),
    json_find j "logLevel" = Some (JString l) ->
    exists c',
      parse_logLevel j c = Some c'
      /\ level_of_config c' = stringToLogLevel l
      /\ stringToLogLevel (ToUpperCase l) = stringToLogLevel l.
Proof.
  intros j c l Hfind. unfold parse_logLevel. rewrite Hfind. simpl.
  unfold stringToLogLevel. rewrite ToUpperCase_idempotent.
  destruct (String.eqb (ToUpperCase l) "DEBUG") eqn:ED; simpl.
  { eexists. split; [reflexivity|]. unfold level_of_config. simpl.
    now rewrite ED. }
  destruct (String.eqb (ToUpperCase l) "INFO") eqn:EI; simpl.
  { eexists. split; [reflexivity|]. unfold level_of_config. simpl.
    now rewrite ED, EI. }
  destruct (String.eqb (ToUpperCase l) "WARN") eqn:EW; simpl.
  { eexists. split; [reflexivity|]. unfold level_of_config. simpl.
    now rewrite ED, EI, EW. }
  destruct (String.eqb (ToUpperCase l) "ERROR") eqn:EE; simpl.
  { eexists. split; [reflexivity|]. unfold level_of_config. simpl.
    now rewrite ED, EI, EW, EE. }
  eexists. split; [reflexivity|]. split; reflexivity.
Qed.

Lemma level_names_ignore_case_witness :
  exists c',
    parse_logLevel [("logLevel", JString "Debug")] default_config = Some c'
    /\ level_of_config c' = stringToLogLevel "Debug"
    /\ stringToLogLevel (ToUpperCase "Debug") = stringToLogLevel "Debug".
Proof.
  apply (level_names_ignore_case
           [("logLevel", JString "Debug")] default_config "Debug").
  reflexivity.
Defined.
